(** * PracticeLife API: router, vault and atlas endpoints, agent health
      fusion and fleet probing

    A shallow embedding of the JavaScript sources
    [lib/router.js], [routes/vault.js], [routes/atlas.js],
    [routes/agent-lifecycle.js] and [routes/fleet.js], followed by the
    properties established about them.

    Conventions.
    - A JavaScript string is a [string]; every character stands for one
      code unit.  Percent-decoded text is kept as the decoded octets.
    - A call that may raise is a [result]: [Ok v] when it returns [v],
      [Throw e] when it raises [e].
    - [null] and [undefined] are [None] of an [option] where the source can
      produce them.
    - What the JavaScript runtime supplies ([new URL], [JSON.parse]) is the
      [Platform] class; the definitions below are written against any
      platform. *)

From Stdlib Require Import String Ascii List ZArith Lia Bool Arith.
Import ListNotations.
Open Scope string_scope.
Open Scope list_scope.

Set Implicit Arguments.

(* ===================================================================== *)
(** * Exceptions and results *)
(* ===================================================================== *)

Inductive exn : Type :=
| TypeError
| URIError
| SyntaxError
| SqliteError
| ExecError.

Inductive result (A : Type) : Type :=
| Ok (a : A)
| Throw (e : exn).

Arguments Ok {A} a.
Arguments Throw {A} e.

Definition rbind {A B : Type} (r : result A) (k : A -> result B) : result B :=
  match r with
  | Ok a => k a
  | Throw e => Throw e
  end.

(** [try { r } catch { h }] *)
Definition try_catch {A : Type} (r : result A) (h : result A) : result A :=
  match r with
  | Ok a => Ok a
  | Throw _ => h
  end.

Fixpoint map_result {A B : Type} (f : A -> result B) (l : list A)
  : result (list B) :=
  match l with
  | [] => Ok []
  | a :: l' =>
      rbind (f a) (fun b => rbind (map_result f l') (fun bs => Ok (b :: bs)))
  end.

(* ===================================================================== *)
(** * JavaScript string operations *)
(* ===================================================================== *)

Module JsString.

(** [s.startsWith(p)] *)
Fixpoint startsWith (p s : string) : bool :=
  match p, s with
  | EmptyString, _ => true
  | String a p', String b s' => Ascii.eqb a b && startsWith p' s'
  | String _ _, EmptyString => false
  end.

(** [s.includes(sub)]: [sub] occurs in [s] at some position. *)
Fixpoint includes (s sub : string) : bool :=
  startsWith sub s ||
  match s with
  | EmptyString => false
  | String _ s' => includes s' sub
  end.

(** [s.slice(1)] *)
Definition slice1 (s : string) : string :=
  match s with
  | EmptyString => EmptyString
  | String _ s' => s'
  end.

(** [s.split(sep)] for a one-character separator: the pieces between the
    occurrences of [sep]; a string without [sep] is one piece. *)
Fixpoint split_acc (sep : ascii) (cur : string) (s : string) : list string :=
  match s with
  | EmptyString => [cur]
  | String c s' =>
      if Ascii.eqb c sep then cur :: split_acc sep EmptyString s'
      else split_acc sep (cur ++ String c EmptyString) s'
  end.

Definition split (sep : ascii) (s : string) : list string :=
  split_acc sep EmptyString s.

End JsString.

(* ===================================================================== *)
(** * [decodeURIComponent] *)
(* ===================================================================== *)

Module Uri.

Definition hex_digit (c : ascii) : option N :=
  let n := N_of_ascii c in
  if (48 <=? n)%N && (n <=? 57)%N then Some (n - 48)%N
  else if (65 <=? n)%N && (n <=? 70)%N then Some (n - 55)%N
  else if (97 <=? n)%N && (n <=? 102)%N then Some (n - 87)%N
  else None.

Definition hex_octet (h l : ascii) : option N :=
  match hex_digit h, hex_digit l with
  | Some a, Some b => Some (16 * a + b)%N
  | _, _ => None
  end.

(** Number of octets announced by a leading octet [b >= 128]: the count of
    its leading one bits when that is 2, 3 or 4. *)
Definition utf8_len (b : N) : option nat :=
  if (b <? 192)%N then None
  else if (b <? 224)%N then Some 2
  else if (b <? 240)%N then Some 3
  else if (b <? 248)%N then Some 4
  else None.

Definition in_range (lo hi b : N) : bool := (lo <=? b)%N && (b <=? hi)%N.

Definition cont (b : N) : bool := in_range 128 191 b.

(** Well-formed UTF-8 octet sequences of one code point (multi-octet forms). *)
Definition valid_utf8 (octets : list N) : bool :=
  match octets with
  | [a; b] => in_range 194 223 a && cont b
  | [a; b; c] =>
      (N.eqb a 224 && in_range 160 191 b && cont c)
      || (in_range 225 236 a && cont b && cont c)
      || (N.eqb a 237 && in_range 128 159 b && cont c)
      || (in_range 238 239 a && cont b && cont c)
  | [a; b; c; d] =>
      (N.eqb a 240 && in_range 144 191 b && cont c && cont d)
      || (in_range 241 243 a && cont b && cont c && cont d)
      || (N.eqb a 244 && in_range 128 143 b && cont c && cont d)
  | _ => false
  end.

Definition octets_to_string (octets : list N) : string :=
  string_of_list_ascii (map ascii_of_N octets).

(** The decoding loop.  [need] is the number of continuation escapes still
    expected for the code point in progress and [octs] the octets read for
    it so far.  [None] is a raised [URIError]: a [%] without two hexadecimal
    digits, a malformed octet sequence, or input ending inside one. *)
Fixpoint decode_go (s : string) (need : nat) (octs : list N) : option string :=
  match s with
  | EmptyString =>
      match need with
      | O => Some EmptyString
      | S _ => None
      end
  | String c rest =>
      if Ascii.eqb c "%" then
        match rest with
        | String h (String l rest') =>
            match hex_octet h l with
            | None => None
            | Some b =>
                match need with
                | O =>
                    if (b <? 128)%N
                    then option_map (String (ascii_of_N b)) (decode_go rest' 0 [])
                    else
                      match utf8_len b with
                      | None => None
                      | Some n => decode_go rest' (n - 1) [b]
                      end
                | S need' =>
                    let octs' := octs ++ [b] in
                    match need' with
                    | O =>
                        if valid_utf8 octs'
                        then option_map (append (octets_to_string octs'))
                                        (decode_go rest' 0 [])
                        else None
                    | S _ => decode_go rest' need' octs'
                    end
                end
            end
        | _ => None
        end
      else
        match need with
        | O => option_map (String c) (decode_go rest 0 [])
        | S _ => None
        end
  end.

Definition decodeURIComponent (s : string) : option string :=
  decode_go s 0 [].

End Uri.

(* ===================================================================== *)
(** * Strings by code unit, and buffers *)
(* ===================================================================== *)

(** The bytes of a [Buffer], one character for each byte. *)
Definition Buffer : Type := string.

Module Utf16.

(** A JavaScript string as the runtime holds it: its UTF-16 code units.
    Positions and lengths of a string count these. *)
Definition code_units : Type := list N.

(** [s.slice(0, n)] *)
Definition slice0 (n : nat) (s : code_units) : code_units := firstn n s.

Definition byte (n : N) : ascii := ascii_of_N n.

(** The UTF-8 bytes of the code point [cp]. *)
Definition utf8 (cp : N) : string :=
  (if cp <? 128 then String (byte cp) EmptyString
   else if cp <? 2048 then
     String (byte (192 + cp / 64)) (String (byte (128 + cp mod 64)) EmptyString)
   else if cp <? 65536 then
     String (byte (224 + cp / 4096))
       (String (byte (128 + (cp / 64) mod 64))
          (String (byte (128 + cp mod 64)) EmptyString))
   else
     String (byte (240 + cp / 262144))
       (String (byte (128 + (cp / 4096) mod 64))
          (String (byte (128 + (cp / 64) mod 64))
             (String (byte (128 + cp mod 64)) EmptyString))))%N.

Definition is_high (u : N) : bool := ((55296 <=? u) && (u <? 56320))%N.
Definition is_low (u : N) : bool := ((56320 <=? u) && (u <? 57344))%N.

(** The string in the form the rest of this development holds text in: the
    UTF-8 bytes of its code points, a surrogate pair being one code point
    and a surrogate without partner being written by its own value. *)
Fixpoint to_text (s : code_units) : string :=
  match s with
  | [] => EmptyString
  | u :: s' =>
      match s' with
      | v :: s'' =>
          if is_high u && is_low v
          then (utf8 (65536 + (u - 55296) * 1024 + (v - 56320)) ++ to_text s'')%string
          else (utf8 u ++ to_text s')%string
      | [] => utf8 u
      end
  end.

End Utf16.

(* ===================================================================== *)
(** * The runtime platform *)
(* ===================================================================== *)

(** JSON values, as [JSON.parse] produces them.  Numbers are kept abstract:
    [num] is the type of IEEE doubles of the runtime.  An object lists its
    own properties, each key once. *)
#[warnings="-register-all"]
Inductive json (num : Type) : Type :=
| JNull
| JBool (b : bool)
| JNum (n : num)
| JStr (s : string)
| JArr (items : list (json num))
| JObj (fields : list (string * json num)).

Arguments JNull {num}.
Arguments JBool {num} b.
Arguments JNum {num} n.
Arguments JStr {num} s.
Arguments JArr {num} items.
Arguments JObj {num} fields.

(** A parsed [URL]: its [pathname] and its [searchParams], the decoded
    name and value pairs in the order of the query string. *)
Record URL : Type := mkURL {
  pathname : string;
  searchParams : list (string * string)
}.

Class Platform : Type := {
  (** the runtime's numbers, and the test [if (n)] on them *)
  num : Type;
  num_truthy : num -> bool;
  (** [new URL(url, 'http://localhost')]; [None] when it raises [TypeError] *)
  URL_parse : string -> option URL;
  (** [JSON.parse(text)]; [None] when it raises [SyntaxError] *)
  JSON_parse : string -> option (json num);
  (** [buf.toString()], which [body += buf] calls: the bytes of one
      [Buffer] read as UTF-8 *)
  Buffer_toString : Buffer -> Utf16.code_units;
  (** [(text.match(/LABEL=(.+)/) || [])[1]] for the label given first *)
  match_label : string -> string -> option string;
  (** [text.replace(/.*up/, 'up')] *)
  replace_up : string -> string;
  (** [text.trim()] *)
  trim : string -> string;
  (** [`${(size / 1073741824).toFixed(1)}GB`] *)
  size_gb : json num -> string;
  (** [sizes.reduce((sum, m) => sum + parseFloat(m) || 0, 0).toFixed(1)] *)
  total_size_gb : list string -> string
}.

Definition JSON_parse_r {P : Platform} (text : string) : result (json num) :=
  match JSON_parse text with
  | Some v => Ok v
  | None => Throw SyntaxError
  end.

(** [url.searchParams.get(name)]: the value of the first pair called [name],
    [None] for [null]. *)
Fixpoint searchParams_get (name : string) (ps : list (string * string))
  : option string :=
  match ps with
  | [] => None
  | (k, v) :: ps' => if String.eqb k name then Some v else searchParams_get name ps'
  end.

(** [x || dflt] on a string-or-null: [null] and the empty string are falsy. *)
Definition or_default (x : option string) (dflt : string) : string :=
  match x with
  | Some (String c s) => String c s
  | _ => dflt
  end.

(** The part of an incoming request the handlers read. *)
Record Request : Type := mkRequest {
  req_method : string;
  url : string
}.

(* ===================================================================== *)
(** * lib/router.js *)
(* ===================================================================== *)

Module Router.

(** The [params] object built by [matchPattern]: an ordinary object created
    by [{}], held as its own properties in creation order. *)
Definition jsobj : Type := list (string * string).

Fixpoint obj_update (k v : string) (o : jsobj) : jsobj :=
  match o with
  | [] => [(k, v)]
  | (k', v') :: o' =>
      if String.eqb k' k then (k', v) :: o' else (k', v') :: obj_update k v o'
  end.

(** [o[k] = v] with [v] a string.  On an ordinary object the key
    [__proto__] is the prototype accessor, whose setter ignores a value
    that is neither an object nor [null]. *)
Definition obj_set (k v : string) (o : jsobj) : jsobj :=
  if String.eqb k "__proto__" then o else obj_update k v o.

(** The own property [k] of [o]. *)
Fixpoint obj_get (k : string) (o : jsobj) : option string :=
  match o with
  | [] => None
  | (k', v') :: o' => if String.eqb k' k then Some v' else obj_get k o'
  end.

Record Route (H : Type) : Type := mkRoute {
  method : string;
  pattern : string;
  handler : H
}.

(** [get(pattern, handler)] and [post(pattern, handler)]: [routes.push]. *)
Definition get {H : Type} (routes : list (Route H)) (p : string) (h : H)
  : list (Route H) :=
  routes ++ [mkRoute "GET" p h].

Definition post {H : Type} (routes : list (Route H)) (p : string) (h : H)
  : list (Route H) :=
  routes ++ [mkRoute "POST" p h].

(** The [for] loop of [matchPattern] over the pattern parts paired with the
    path parts at the same index. *)
Fixpoint match_parts (parts : list (string * string)) (params : jsobj)
  : result (option jsobj) :=
  match parts with
  | [] => Ok (Some params)
  | (pat, seg) :: parts' =>
      if JsString.startsWith ":" pat then
        match Uri.decodeURIComponent seg with
        | None => Throw URIError
        | Some v => match_parts parts' (obj_set (JsString.slice1 pat) v params)
        end
      else if negb (String.eqb pat seg) then Ok None
      else match_parts parts' params
  end.

(** [matchPattern(pattern, pathname)]; [Ok None] is [null]. *)
Definition matchPattern (pat path : string) : result (option jsobj) :=
  let patternParts := JsString.split "/" pat in
  let pathParts := JsString.split "/" path in
  if negb (Nat.eqb (length patternParts) (length pathParts)) then Ok None
  else match_parts (combine patternParts pathParts) [].

(** The [for (const route of this.routes)] loop of [match]. *)
Fixpoint match_routes {H : Type} (routes : list (Route H)) (m path : string)
  : result (option (H * jsobj)) :=
  match routes with
  | [] => Ok None
  | route :: routes' =>
      if negb (String.eqb (method route) m) then match_routes routes' m path
      else
        match matchPattern (pattern route) path with
        | Throw e => Throw e
        | Ok None => match_routes routes' m path
        | Ok (Some params) => Ok (Some (handler route, params))
        end
  end.

(** [match(method, url)] *)
Definition match_ {P : Platform} {H : Type} (routes : list (Route H))
  (m url : string) : result (option (H * jsobj)) :=
  match URL_parse url with
  | None => Throw TypeError
  | Some u => match_routes routes m (pathname u)
  end.

End Router.


(* ===================================================================== *)
(** * lib/vault.js and routes/vault.js *)
(* ===================================================================== *)

(** The file-system calls the vault helpers make ([fs] and [path] of the
    runtime). *)
Class FileSystem : Type := {
  path_join : string -> string -> string;
  existsSync : string -> bool;
  readFileSync : string -> result string;
  readdirSync : string -> result (list string);
  (** [fs.statSync(p).mtime.toISOString()] *)
  mtime_iso : string -> result string
}.

Module Vault.

Record Note : Type := mkNote {
  note_name : string;
  note_path : string;
  modified : string
}.

Inductive Body : Type :=
| BError (error : string)
| BNotes (notes : list Note) (directory : string)
| BNote (path : string) (content : string).

Record Response : Type := mkResponse {
  status : Z;
  body : Body
}.

Section WithVault.
Context {P : Platform} {F : FileSystem}.
Variable VAULT_PATH : string.

Definition endsWith_md (f : string) : bool :=
  let n := String.length f in
  (3 <=? n)%nat && String.eqb (substring (n - 3) 3 f) ".md".

(** [f.replace(/\.md$/, '')] *)
Definition strip_md (f : string) : string :=
  if endsWith_md f then substring 0 (String.length f - 3) f else f.

Fixpoint note_entries (dir subdir : string) (files : list string)
  : result (list Note) :=
  match files with
  | [] => Ok []
  | f :: files' =>
      rbind (mtime_iso (path_join dir f)) (fun m =>
      rbind (note_entries dir subdir files') (fun rest =>
      Ok (mkNote (strip_md f) (path_join subdir f) m :: rest)))
  end.

Definition listNotes (subdir : string) : result (list Note) :=
  let dir := path_join VAULT_PATH subdir in
  if negb (existsSync dir) then Ok []
  else rbind (readdirSync dir) (fun files =>
       note_entries dir subdir (filter endsWith_md files)).

(** [readNote(relativePath)]; [Ok None] is [null]. *)
Definition readNote (relativePath : string) : result (option string) :=
  let fullPath := path_join VAULT_PATH relativePath in
  if negb (JsString.startsWith VAULT_PATH fullPath) then Ok None
  else if negb (existsSync fullPath) then Ok None
  else rbind (readFileSync fullPath) (fun content => Ok (Some content)).

(** Handler of [GET /api/vault/notes]. *)
Definition notes_handler (req : Request) : result Response :=
  match URL_parse (url req) with
  | None => Throw TypeError
  | Some u =>
      let dir := or_default (searchParams_get "dir" (searchParams u)) "" in
      if JsString.includes dir ".."
      then Ok (mkResponse 400 (BError "Invalid directory"))
      else rbind (listNotes dir) (fun notes =>
           Ok (mkResponse 200 (BNotes notes dir)))
  end.

(** Handler of [GET /api/vault/note]. *)
Definition note_handler (req : Request) : result Response :=
  match URL_parse (url req) with
  | None => Throw TypeError
  | Some u =>
      let notePath := or_default (searchParams_get "path" (searchParams u)) "" in
      if JsString.includes notePath ".."
      then Ok (mkResponse 400 (BError "Invalid path"))
      else rbind (readNote notePath) (fun content =>
           match content with
           | None => Ok (mkResponse 404 (BError "Note not found"))
           | Some c => Ok (mkResponse 200 (BNote notePath c))
           end)
  end.

End WithVault.

End Vault.

(* ===================================================================== *)
(** * routes/atlas.js: [GET /api/atlas/assets] *)
(* ===================================================================== *)

Module Atlas.

(** A JavaScript number whose value is an integer, an infinity, or [NaN];
    zero stands for both of its signs. *)
Inductive jsnum : Type :=
| Num (z : Z)
| Inf (negative : bool)
| NaN.

(** The number nearest to the integer [z], a tie going to the even
    significand of 53 bits; an infinity from 2^1024 - 2^970 on. *)
Definition to_double (z : Z) : jsnum :=
  let a := Z.abs z in
  if (a <? 2 ^ 53)%Z then Num z
  else
    let k := (Z.log2 a - 52)%Z in
    let q := (a / 2 ^ k)%Z in
    let r := (a mod 2 ^ k)%Z in
    let half := (2 ^ (k - 1))%Z in
    let q' := if ((half <? r) || ((r =? half) && Z.odd q))%Z
              then (q + 1)%Z else q in
    if (2 ^ 1024 <=? q' * 2 ^ k)%Z then Inf (z <? 0)%Z
    else Num (Z.sgn z * (q' * 2 ^ k))%Z.

(** The white space and line terminators of one byte: U+0009 to U+000D
    and U+0020. *)
Definition is_space (c : ascii) : bool :=
  let n := N_of_ascii c in
  (N.eqb n 32 || (N.leb 9 n && N.leb n 13))%bool.

(** U+00A0, in UTF-8. *)
Definition is_space2 (a b : ascii) : bool :=
  (N.eqb (N_of_ascii a) 194 && N.eqb (N_of_ascii b) 160)%bool.

(** U+1680, U+2000 to U+200A, U+2028, U+2029, U+202F, U+205F, U+3000 and
    U+FEFF, in UTF-8. *)
Definition is_space3 (a b c : ascii) : bool :=
  let '(x, y, z) := (N_of_ascii a, N_of_ascii b, N_of_ascii c) in
  ((N.eqb x 225 && N.eqb y 154 && N.eqb z 128)
   || (N.eqb x 226 && N.eqb y 128
       && ((N.leb 128 z && N.leb z 138) || N.eqb z 168 || N.eqb z 169
           || N.eqb z 175))
   || (N.eqb x 226 && N.eqb y 129 && N.eqb z 159)
   || (N.eqb x 227 && N.eqb y 128 && N.eqb z 128)
   || (N.eqb x 239 && N.eqb y 187 && N.eqb z 191))%bool.

(** [s] without the white space and line terminators it starts with. *)
Fixpoint skip_spaces (s : string) : string :=
  match s with
  | String a s1 =>
      if is_space a then skip_spaces s1
      else
        match s1 with
        | String b s2 =>
            if is_space2 a b then skip_spaces s2
            else
              match s2 with
              | String c s3 => if is_space3 a b c then skip_spaces s3 else s
              | EmptyString => s
              end
        | EmptyString => s
        end
  | EmptyString => EmptyString
  end.

Definition digit_of (radix : N) (c : ascii) : option N :=
  match Uri.hex_digit c with
  | Some d => if (d <? radix)%N then Some d else None
  | None => None
  end.

(** The longest prefix of digits of [s], read in [radix]; [None] when [s]
    starts with no digit. *)
Fixpoint digits (radix : N) (acc : option N) (s : string) : option N :=
  match s with
  | EmptyString => acc
  | String c s' =>
      match digit_of radix c with
      | None => acc
      | Some d =>
          digits radix
            (Some (match acc with None => d | Some a => a * radix + d end)%N) s'
      end
  end.

(** [parseInt(s)] without a radix argument. *)
Definition parseInt (s : string) : jsnum :=
  let s := skip_spaces s in
  let '(sign, s) :=
    match s with
    | String "-" s' => ((-1)%Z, s')
    | String "+" s' => (1%Z, s')
    | _ => (1%Z, s)
    end in
  let '(radix, s) :=
    if JsString.startsWith "0x" s || JsString.startsWith "0X" s
    then (16%N, JsString.slice1 (JsString.slice1 s))
    else (10%N, s) in
  match digits radix None s with
  | None => NaN
  | Some n => to_double (sign * Z.of_N n)
  end.

(** [Math.min(a, 200)] *)
Definition Math_min_200 (a : jsnum) : jsnum :=
  match a with
  | NaN => NaN
  | Inf true => Inf true
  | Inf false => Num 200
  | Num z => Num (Z.min z 200)
  end.

(** The columns of table [asset] the list query names. *)
Record Asset : Type := mkAsset {
  asset_id : string;
  source_type : string;
  recorded_at : string
}.

(** The database handle of [getDb()]: the rows of table [asset]. *)
Definition Database : Type := list Asset.

Definition recorded_geb (a b : Asset) : bool :=
  match String.compare (recorded_at a) (recorded_at b) with
  | Lt => false
  | _ => true
  end.

Fixpoint insert_desc (a : Asset) (l : list Asset) : list Asset :=
  match l with
  | [] => [a]
  | b :: l' => if recorded_geb a b then a :: l else b :: insert_desc a l'
  end.

(** [ORDER BY recorded_at DESC] *)
Definition order_desc (l : list Asset) : list Asset :=
  fold_right insert_desc [] l.

(** [WHERE source_type = ?], present when [type] is truthy. *)
Definition where_type (type : option string) (l : list Asset) : list Asset :=
  match type with
  | Some (String c t) =>
      filter (fun a => String.eqb (source_type a) (String c t)) l
  | _ => l
  end.

(** A number bound to [LIMIT ?] or [OFFSET ?].  It is bound as a double,
    [NaN] as NULL; the query takes a double for an integer when it holds
    one strictly between -2^63 and 2^63, and anything else is a datatype
    mismatch. *)
Definition bind_int (n : jsnum) : result Z :=
  match n with
  | Num z =>
      if ((- 2 ^ 63 <? z) && (z <? 2 ^ 63))%Z then Ok z else Throw SqliteError
  | _ => Throw SqliteError
  end.

(** SQLite's [LIMIT l OFFSET o]: a negative [o] skips nothing, a negative
    [l] puts no upper bound on the number of rows. *)
Definition limit_offset {A : Type} (l o : Z) (rows : list A) : list A :=
  let rest := skipn (Z.to_nat o) rows in
  if (l <? 0)%Z then rest else firstn (Z.to_nat l) rest.

(** [db.prepare('SELECT * FROM asset [WHERE source_type = ?] ORDER BY
    recorded_at DESC LIMIT ? OFFSET ?').all(...args)] *)
Definition select_assets (db : Database) (type : option string)
  (limit offset : jsnum) : result (list Asset) :=
  rbind (bind_int limit) (fun l =>
  rbind (bind_int offset) (fun o =>
  Ok (limit_offset l o (order_desc (where_type type db))))).

(** [SELECT COUNT( * ) as count FROM asset [WHERE source_type = ?]] *)
Definition count_assets (db : Database) (type : option string) : Z :=
  Z.of_nat (length (where_type type db)).

Inductive Body : Type :=
| BError (error : string)
| BAssets (assets : list Asset) (total : Z) (limit offset : jsnum).

Record Response : Type := mkResponse {
  status : Z;
  body : Body
}.

Definition assets_of (r : Response) : list Asset :=
  match body r with
  | BAssets rows _ _ _ => rows
  | BError _ => []
  end.

(** Handler of [GET /api/atlas/assets]; [db] is the value of [getDb()]. *)
Definition assets_handler {P : Platform} (db : option Database)
  (req : Request) : result Response :=
  match db with
  | None => Ok (mkResponse 503 (BError "MemoryAtlas database unavailable"))
  | Some db =>
      match URL_parse (url req) with
      | None => Throw TypeError
      | Some u =>
          let q := searchParams u in
          let limit :=
            Math_min_200 (parseInt (or_default (searchParams_get "limit" q) "50")) in
          let offset := parseInt (or_default (searchParams_get "offset" q) "0") in
          let type := searchParams_get "type" q in
          rbind (select_assets db type limit offset) (fun rows =>
          let total := count_assets db type in
          Ok (mkResponse 200 (BAssets rows total limit offset)))
      end
  end.

End Atlas.

(* ===================================================================== *)
(** * routes/agent-lifecycle.js: [getAgentHealth] *)
(* ===================================================================== *)

Module Agents.

(** A row of the protocol table, as [getActiveAgents] returns it. *)
Record ProtocolAgent : Type := mkProtocolAgent {
  pa_id : string;
  pa_name : string;
  pa_model : string;
  pa_interface : string;
  pa_status : string;
  pa_focus : string
}.

(** A line of the process listing, as [getRunningAgentProcesses] returns it. *)
Record ProcessAgent : Type := mkProcessAgent {
  user : string;
  pid : string;
  cpu : string;
  mem : string;
  command : string
}.

(** A session-log record, as [getActiveAgentSessions] returns it. *)
Record SessionAgent : Type := mkSessionAgent {
  logFile : string;
  agentName : string;
  sa_status : string;
  sa_focus : string;
  sa_model : string;
  lastModified : string;
  sa_ageMs : Z;
  isRecentlyActive : bool
}.

Definition RECENCY_THRESHOLD : Z := 3600000.

(** How [getActiveAgentSessions] sets [isRecentlyActive]. *)
Definition recent (ageMs : Z) : bool := (ageMs <? RECENCY_THRESHOLD)%Z.

(** The [source] field: ['protocol'] or ['session-log']. *)
Inductive Source : Type :=
| Protocol
| SessionLog.

(** A value of [healthMap]; a field the object literal leaves out is [None]. *)
Record AgentRecord : Type := mkAgentRecord {
  name : string;
  id : option string;
  model : string;
  status : string;
  focus : string;
  source : Source;
  protocolStatus : option string;
  lastActivity : option string;
  sessionLog : option string;
  ageMs : option Z
}.

(** A [Map] from names to records, in insertion order. *)
Definition HealthMap : Type := list (string * AgentRecord).

(** [healthMap.set(k, v)]: a present key keeps its place and takes the new
    value, a new key goes last. *)
Fixpoint map_set (k : string) (v : AgentRecord) (m : HealthMap) : HealthMap :=
  match m with
  | [] => [(k, v)]
  | (k', v') :: m' =>
      if String.eqb k' k then (k', v) :: m' else (k', v') :: map_set k v m'
  end.

Definition of_protocol (agent : ProtocolAgent) : AgentRecord :=
  {| name := pa_name agent;
     id := Some (pa_id agent);
     model := pa_model agent;
     status := pa_status agent;
     focus := pa_focus agent;
     source := Protocol;
     protocolStatus := Some (pa_status agent);
     lastActivity := None;
     sessionLog := None;
     ageMs := None |}.

Definition of_session (session : SessionAgent) : AgentRecord :=
  {| name := agentName session;
     id := None;
     model := sa_model session;
     status := sa_status session;
     focus := sa_focus session;
     source := SessionLog;
     protocolStatus := None;
     lastActivity := Some (lastModified session);
     sessionLog := Some (logFile session);
     ageMs := Some (sa_ageMs session) |}.

(** The three assignments to [existing]. *)
Definition enrich (session : SessionAgent) (a : AgentRecord) : AgentRecord :=
  {| name := name a;
     id := id a;
     model := model a;
     status := status a;
     focus := focus a;
     source := source a;
     protocolStatus := protocolStatus a;
     lastActivity := Some (lastModified session);
     sessionLog := Some (logFile session);
     ageMs := Some (sa_ageMs session) |}.

(** The predicate handed to [find]. *)
Definition matches (session : SessionAgent) (a : AgentRecord) : bool :=
  String.eqb (name a) (agentName session)
  || JsString.includes (agentName session) (name a).

(** [Array.from(healthMap.values()).find(p)] followed by the assignments
    to the object found: the first value satisfying [p], in insertion
    order, is updated where it sits.  [None] when [find] gives
    [undefined]. *)
Fixpoint update_first (p : AgentRecord -> bool) (f : AgentRecord -> AgentRecord)
  (m : HealthMap) : option HealthMap :=
  match m with
  | [] => None
  | (k, v) :: m' =>
      if p v then Some ((k, f v) :: m')
      else option_map (cons (k, v)) (update_first p f m')
  end.

(** The body of the [forEach] over the recently active sessions. *)
Definition fuse_session (m : HealthMap) (session : SessionAgent) : HealthMap :=
  match update_first (matches session) (enrich session) m with
  | Some m' => m'
  | None => map_set (agentName session) (of_session session) m
  end.

(** The first [forEach]: one [set] per protocol row. *)
Definition seed (protocolAgents : list ProtocolAgent) : HealthMap :=
  fold_left (fun m agent => map_set (pa_name agent) (of_protocol agent) m)
            protocolAgents [].

Definition fuse (protocolAgents : list ProtocolAgent)
  (sessionAgents : list SessionAgent) : HealthMap :=
  fold_left fuse_session (filter isRecentlyActive sessionAgents)
            (seed protocolAgents).

Record Summary : Type := mkSummary {
  total : nat;
  active : nat;
  parked : nat;
  recentlyActive : nat
}.

(** [a.ageMs && a.ageMs < 3600000]: an absent or zero [ageMs] is falsy. *)
Definition is_recent (a : AgentRecord) : bool :=
  match ageMs a with
  | None => false
  | Some z => negb (z =? 0)%Z && (z <? 3600000)%Z
  end.

Definition summarize (m : HealthMap) : Summary :=
  let values := map snd m in
  {| total := length m;
     active := length (filter (fun a => String.eqb (status a) "Active") values);
     parked := length (filter (fun a => String.eqb (status a) "Parked") values);
     recentlyActive := length (filter is_recent values) |}.

Record Health : Type := mkHealth {
  agents : list AgentRecord;
  summary : Summary;
  processes : list ProcessAgent;
  timestamp : string
}.

(** [getAgentHealth()], given what its three readers return and the clock
    reading of [new Date().toISOString()]. *)
Definition getAgentHealth (protocolAgents : list ProtocolAgent)
  (processAgents : list ProcessAgent) (sessionAgents : list SessionAgent)
  (now : string) : Health :=
  let healthMap := fuse protocolAgents sessionAgents in
  {| agents := map snd healthMap;
     summary := summarize healthMap;
     processes := processAgents;
     timestamp := now |}.

End Agents.

(* ===================================================================== *)
(** * Property access on parsed JSON *)
(* ===================================================================== *)

Module Js.

Section WithPlatform.
Context {P : Platform}.

(** A JavaScript value that came out of [JSON.parse], or [undefined]. *)
Definition value : Type := option (json num).

Fixpoint lookup (k : string) (fields : list (string * json num)) : value :=
  match fields with
  | [] => None
  | (k', v) :: fields' => if String.eqb k' k then Some v else lookup k fields'
  end.

(** [if (v)] *)
Definition truthy (v : value) : bool :=
  match v with
  | None => false
  | Some JNull => false
  | Some (JBool b) => b
  | Some (JNum n) => num_truthy n
  | Some (JStr s) => negb (String.eqb s "")
  | Some (JArr _) => true
  | Some (JObj _) => true
  end.

(** [v.k] for a key [k] that no prototype defines: [TypeError] on [null]
    and [undefined], the own property on an object, [undefined] on an
    array or a primitive. *)
Definition get (v : value) (k : string) : result value :=
  match v with
  | None => Throw TypeError
  | Some JNull => Throw TypeError
  | Some (JObj fields) => Ok (lookup k fields)
  | Some _ => Ok None
  end.

(** [v?.k] *)
Definition opt_get (v : value) (k : string) : value :=
  match v with
  | Some (JObj fields) => lookup k fields
  | _ => None
  end.

(** [v?.[0]] *)
Definition opt_first (v : value) : value :=
  match v with
  | Some (JArr (x :: _)) => Some x
  | Some (JStr (String c _)) => Some (JStr (String c EmptyString))
  | Some (JObj fields) => lookup "0" fields
  | _ => None
  end.

(** [v || d] *)
Definition or_else (v : value) (d : json num) : json num :=
  match v with
  | Some x => if truthy v then x else d
  | None => d
  end.

(** [v.map(f)]: [TypeError] unless [v] is an array. *)
Definition array_map {B : Type} (v : value) (f : json num -> result B)
  : result (list B) :=
  match v with
  | Some (JArr items) => map_result f items
  | _ => Throw TypeError
  end.

Fixpoint chars (s : string) : list (json num) :=
  match s with
  | EmptyString => []
  | String c s' => JStr (String c EmptyString) :: chars s'
  end.

(** [Object.values(v)] for a truthy [v]. *)
Definition values (v : json num) : list (json num) :=
  match v with
  | JObj fields => map snd fields
  | JArr items => items
  | JStr s => chars s
  | _ => []
  end.

End WithPlatform.

End Js.

(* ===================================================================== *)
(** * routes/fleet.js *)
(* ===================================================================== *)

Module Fleet.

Definition ANVIL_LAN : string := "192.168.1.105".
Definition ANVIL_TS : string := "100.116.17.120".
Definition ANVIL_OLLAMA : Z := 11434.
Definition LITELLM_PORT : Z := 4000.

Section WithPlatform.
Context {P : Platform}.

(** ** [probe] *)

(** The value a probe resolves with; a key the literal leaves out is
    [None].  [data] is the parsed body, or the raw text as a string. *)
Record ProbeResult : Type := mkProbeResult {
  ok : bool;
  latencyMs : Z;
  status : option Z;
  data : Js.value;
  timeout : option bool
}.

(** What happens to the request [http.get] returned: the response
    callback, the ['data'] and ['end'] events of the response, the ['error']
    and ['timeout'] events of the request, and the connection closing
    before the response is complete, on which the response emits
    ['aborted'] and ['close'] and never ['end'].  ['data'] carries the
    [Buffer] of one chunk, since no encoding is set on the response.
    [End_] and [Error] carry the reading of [Date.now()] in their
    listener. *)
Inductive HttpEvent : Type :=
| Response (statusCode : Z)
| Data (d : Buffer)
| End_ (now : Z)
| Error (now : Z)
| Timeout
| Aborted.

Record ProbeState : Type := mkProbeState {
  start : Z;
  (** [res.statusCode], once the response callback ran *)
  response : option Z;
  body : Utf16.code_units;
  (** the value the promise is resolved with, once it is *)
  settled : option ProbeResult;
  destroyed : bool
}.

(** [resolve(v)]: only the first call settles the promise. *)
Definition resolve (v : ProbeResult) (st : ProbeState) : ProbeState :=
  match settled st with
  | Some _ => st
  | None =>
      {| start := start st; response := response st; body := body st;
         settled := Some v; destroyed := destroyed st |}
  end.

(** [req.destroy()] *)
Definition destroy (st : ProbeState) : ProbeState :=
  {| start := start st; response := response st; body := body st;
     settled := settled st; destroyed := true |}.

(** The listener of ['end']. *)
Definition on_end (now : Z) (code : Z) (st : ProbeState) : result ProbeState :=
  let latencyMs := (now - start st)%Z in
  try_catch
    (rbind (JSON_parse_r (Utf16.to_text (body st))) (fun d =>
     Ok (resolve (mkProbeResult true latencyMs (Some code) (Some d) None) st)))
    (Ok (resolve (mkProbeResult true latencyMs (Some code)
                    (Some (JStr (Utf16.to_text (Utf16.slice0 500 (body st)))))
                    None) st)).

(** One event handed to the listeners installed at that point; [probe]
    installs none for [Aborted]. *)
Definition on_event (timeout_ms : Z) (st : ProbeState) (ev : HttpEvent)
  : result ProbeState :=
  match ev with
  | Response code =>
      Ok {| start := start st; response := Some code; body := [];
            settled := settled st; destroyed := destroyed st |}
  | Data d =>
      match response st with
      | Some _ =>
          Ok {| start := start st; response := response st;
                body := body st ++ Buffer_toString d;
                settled := settled st; destroyed := destroyed st |}
      | None => Ok st
      end
  | End_ now =>
      match response st with
      | Some code => on_end now code st
      | None => Ok st
      end
  | Error now =>
      Ok (resolve (mkProbeResult false (now - start st) None None None) st)
  | Timeout =>
      Ok (resolve (mkProbeResult false timeout_ms None None (Some true))
                  (destroy st))
  | Aborted => Ok st
  end.

Fixpoint run_events (timeout_ms : Z) (st : ProbeState) (evs : list HttpEvent)
  : result ProbeState :=
  match evs with
  | [] => Ok st
  | ev :: evs' =>
      rbind (on_event timeout_ms st ev) (fun st' => run_events timeout_ms st' evs')
  end.

(** [probe(host, port, path, timeout = 3000)] from the point where
    [http.get] has returned the request to [host:port/path], run against
    what happens to that request, with [started] the reading of
    [Date.now()] at the call.  The calls in this file pass constant
    options, which [http.get] accepts; a call it refuses raises inside the
    promise, which is then rejected before any listener is installed, and
    is not part of this function.  The result is the state of the promise:
    [Ok (Some v)] resolved with [v], [Ok None] still pending, [Throw e] a
    listener raised [e]. *)
Definition probe (host : string) (port : Z) (path : string)
  (timeout_opt : option Z) (started : Z) (evs : list HttpEvent)
  : result (option ProbeResult) :=
  let timeout_ms := match timeout_opt with Some t => t | None => 3000%Z end in
  rbind (run_events timeout_ms (mkProbeState started None [] None false) evs)
        (fun st => Ok (settled st)).

(** The event that settles a pending promise: ['end'] once the response
    callback ran, ['error'], or ['timeout']. *)
Definition settles (seen_response : bool) (ev : HttpEvent) : bool :=
  match ev with
  | End_ _ => seen_response
  | Error _ => true
  | Timeout => true
  | _ => false
  end.

(** ** The handler of [GET /api/fleet] *)

(** The calls that leave the process. *)
Inductive Action : Type :=
| AProbe (host : string) (port : Z) (path : string)
| ARun (cmd : string)
| AGetModels.

(** What the outside answers. *)
Record World : Type := mkWorld {
  (** the value the promise of [probe(host, port, path)] resolves with *)
  probe_answer : string -> Z -> string -> ProbeResult;
  (** [execSync(cmd, { timeout, encoding })]; [Throw] when it raises *)
  execSync : string -> Z -> result string;
  (** the body the request for [/v1/models] ends with; [None] when it
      errors or times out *)
  models_body : option string;
  os_hostname : string;
  os_cpus : Z;
  os_totalMemGB : num;
  os_freeMemGB : num;
  os_loadavg : list num;
  now_iso : string
}.

(** A computation that logs its outside calls and may raise. *)
Definition M (A : Type) : Type := list Action -> list Action * result A.

Definition ret {A : Type} (a : A) : M A := fun log => (log, Ok a).

Definition bind {A B : Type} (c : M A) (k : A -> M B) : M B :=
  fun log =>
    match c log with
    | (log', Ok a) => k a log'
    | (log', Throw e) => (log', Throw e)
    end.

Definition emit (a : Action) : M unit := fun log => (log ++ [a], Ok tt).

Definition lift {A : Type} (r : result A) : M A := fun log => (log, r).

Notation "x <- c ;; k" := (bind c (fun x => k))
  (at level 61, c at next level, right associativity).
Notation "c ;;; k" := (bind c (fun _ => k))
  (at level 61, right associativity).

Variable w : World.

(** [run(cmd, timeout)]; [None] is [null]. *)
Definition run (cmd : string) (timeout_ms : Z) : M (option string) :=
  emit (ARun cmd) ;;;
  ret (match execSync w cmd timeout_ms with
       | Ok out => Some (trim out)
       | Throw _ => None
       end).

Definition await_probe (host : string) (port : Z) (path : string)
  : M ProbeResult :=
  emit (AProbe host port path) ;;;
  ret (probe_answer w host port path).

Record AnvilSystem : Type := mkAnvilSystem {
  as_hostname : string;
  as_uptime : string;
  as_disk : string
}.

Definition ssh_command : string :=
  "ssh -o ConnectTimeout=3 -o StrictHostKeyChecking=no anvil " ++
  String (ascii_of_nat 34)
  ("export PATH=/opt/homebrew/bin:/usr/local/bin:$PATH && echo HOSTNAME=$(hostname) && echo UPTIME=$(uptime) && echo MEM=$(vm_stat | head -5) && echo DISK=$(df -h / | tail -1)" ++
  String (ascii_of_nat 34) " 2>/dev/null").

(** [x || 'unknown'] on a string or [undefined] *)
Definition or_unknown (x : option string) : string := or_default x "unknown".

(** [getAnvilSystem()]; [None] is [null]. *)
Definition getAnvilSystem : M (option AnvilSystem) :=
  info <- run ssh_command 8000 ;;
  match info with
  | None | Some EmptyString => ret None
  | Some info =>
      let hostname := or_unknown (match_label "HOSTNAME" info) in
      let uptime := or_unknown (match_label "UPTIME" info) in
      let disk := or_unknown (match_label "DISK" info) in
      ret (Some (mkAnvilSystem hostname (replace_up uptime) disk))
  end.

Record HearthSystem : Type := mkHearthSystem {
  hs_hostname : string;
  hs_uptime : string;
  hs_disk : string;
  cpus : Z;
  totalMemGB : num;
  freeMemGB : num;
  loadAvg : list num
}.

(** [getHearthSystem()] *)
Definition getHearthSystem : M HearthSystem :=
  up <- run "uptime" 5000 ;;
  df <- run "df -h / | tail -1" 5000 ;;
  ret (mkHearthSystem (os_hostname w)
         (or_unknown (option_map replace_up up))
         (or_unknown df)
         (os_cpus w) (os_totalMemGB w) (os_freeMemGB w) (os_loadavg w)).

Record AnvilModel : Type := mkAnvilModel {
  am_name : Js.value;
  am_size : string;
  am_family : json num;
  parameterSize : json num;
  quantization : json num
}.

Record LocalModel : Type := mkLocalModel {
  lm_name : Js.value;
  lm_size : string;
  lm_family : json num
}.

(** [m.size ? `${(m.size / 1073741824).toFixed(1)}GB` : 'unknown'] *)
Definition size_text (size : Js.value) : string :=
  match size with
  | Some v => if Js.truthy size then size_gb v else "unknown"
  | None => "unknown"
  end.

Definition anvil_model (m : json num) : result AnvilModel :=
  rbind (Js.get (Some m) "name") (fun name =>
  rbind (Js.get (Some m) "size") (fun size =>
  rbind (Js.get (Some m) "details") (fun details =>
  Ok (mkAnvilModel name (size_text size)
        (Js.or_else (Js.opt_get details "family") (JStr "unknown"))
        (Js.or_else (Js.opt_get details "parameter_size") (JStr "unknown"))
        (Js.or_else (Js.opt_get details "quantization_level") (JStr "unknown")))))).

Definition local_model (m : json num) : result LocalModel :=
  rbind (Js.get (Some m) "name") (fun name =>
  rbind (Js.get (Some m) "size") (fun size =>
  rbind (Js.get (Some m) "details") (fun details =>
  Ok (mkLocalModel name (size_text size)
        (Js.or_else (Js.opt_get details "family") (JStr "unknown")))))).

(** [let models = []; if (p.ok && p.data?.models) models = p.data.models.map(f)] *)
Definition models_of {B : Type} (p : ProbeResult) (f : json num -> result B)
  : result (list B) :=
  if ok p && Js.truthy (Js.opt_get (data p) "models")
  then Js.array_map (Js.opt_get (data p) "models") f
  else Ok [].

(** The promise around the request for [/v1/models]: the list of [m.id],
    or [[]] on an error, a timeout, or anything raised in the ['end']
    listener. *)
Definition fetch_models : M (list Js.value) :=
  emit AGetModels ;;;
  ret (match models_body w with
       | None => []
       | Some text =>
           match
             rbind (JSON_parse_r text) (fun parsed =>
             rbind (Js.get (Some parsed) "data") (fun d =>
             Js.array_map (Some (Js.or_else d (JArr []))) (fun m =>
               Js.get (Some m) "id")))
           with
           | Ok ids => ids
           | Throw _ => []
           end
       end).

Record Device : Type := mkDevice {
  dev_name : Js.value;
  ip : Js.value;
  online : Js.value;
  os : Js.value;
  lastSeen : Js.value
}.

Definition peer_device (p : json num) : result Device :=
  rbind (Js.get (Some p) "HostName") (fun name =>
  rbind (Js.get (Some p) "TailscaleIPs") (fun ips =>
  rbind (Js.get (Some p) "Online") (fun online =>
  rbind (Js.get (Some p) "OS") (fun os =>
  rbind (Js.get (Some p) "LastSeen") (fun seen =>
  Ok (mkDevice name (Js.opt_first ips) online os seen)))))).

(** The body of the [try] that reads the Tailscale status. *)
Definition tailscale_devices (text : string) : result (list Device) :=
  rbind (JSON_parse_r text) (fun ts =>
  rbind (Js.get (Some ts) "Peer") (fun peer =>
  let peers := Js.or_else peer (JObj []) in
  let self := Js.opt_get (Some ts) "Self" in
  let me :=
    mkDevice (Some (Js.or_else (Js.opt_get self "HostName") (JStr "self")))
             (Js.opt_first (Js.opt_get self "TailscaleIPs"))
             (Some (JBool true))
             (Js.opt_get self "OS")
             None in
  rbind (map_result peer_device (Js.values peers)) (fun others =>
  Ok (me :: others)))).

Record Service : Type := mkService {
  svc_port : Z;
  svc_status : string;
  svc_latencyMs : option Z
}.

Definition up_down (b : bool) : string := if b then "up" else "down".

(** [run(cmd) ? 'up' : 'down'] *)
Definition up_if_output (out : option string) : string :=
  match out with
  | Some (String _ _) => "up"
  | _ => "down"
  end.

Record Link : Type := mkLink {
  reachable : bool;
  link_latencyMs : Z
}.

(** The [fleet] object, without the subtrees that are literals of the
    source ([name], [model], [specs], [role], [ip], [nas], [mobile],
    [description], [flowDescription]). *)
Record FleetBody : Type := mkFleetBody {
  fleet_timestamp : string;
  hearth_system : HearthSystem;
  hearth_dashboard : Service;
  hearth_api : Service;
  hearth_promptBrowser : Service;
  hearth_contactVerify : Service;
  hearth_litellm : Service;
  hearth_ollama : Service;
  hearth_models : list LocalModel;
  anvil_system : option AnvilSystem;
  anvil_lan : Link;
  anvil_tailscale : Link;
  anvil_ollama_status : string;
  anvil_ollama_models : list AnvilModel;
  anvil_totalSizeGB : string;
  routing_litellm_status : string;
  routing_litellm_port : Z;
  routing_litellm_models : list Js.value;
  tailscale_device_list : list Device;
  meshSize : nat
}.

Record FleetResponse : Type := mkFleetResponse {
  resp_status : Z;
  resp_body : FleetBody
}.

(** The handler registered for [/api/fleet]. *)
Definition fleet_handler : M FleetResponse :=
  anvilOllama <- await_probe ANVIL_LAN ANVIL_OLLAMA "/api/tags" ;;
  anvilOllamaTs <- await_probe ANVIL_TS ANVIL_OLLAMA "/api/tags" ;;
  litellm <- await_probe "127.0.0.1" LITELLM_PORT "/health/readiness" ;;
  localOllama <- await_probe "127.0.0.1" ANVIL_OLLAMA "/api/tags" ;;
  anvilModels <- lift (models_of anvilOllama anvil_model) ;;
  localModels <- lift (models_of localOllama local_model) ;;
  anvilSystem <- (if ok anvilOllama then getAnvilSystem else ret None) ;;
  hearthSystem <- getHearthSystem ;;
  litellmModels <- (if ok litellm then fetch_models else ret []) ;;
  tailscaleStatus <- run "tailscale status --json 2>/dev/null" 5000 ;;
  let tailscaleDevices :=
    match tailscaleStatus with
    | Some (String c t) =>
        match tailscale_devices (String c t) with
        | Ok ds => ds
        | Throw _ => []
        end
    | _ => []
    end in
  dashboard <- run "/usr/sbin/lsof -ti:3000" 5000 ;;
  promptBrowser <- run "/usr/sbin/lsof -ti:3002" 5000 ;;
  contactVerify <- run "/usr/sbin/lsof -ti:3003" 5000 ;;
  ret (mkFleetResponse 200
    {| fleet_timestamp := now_iso w;
       hearth_system := hearthSystem;
       hearth_dashboard := mkService 3000 (up_if_output dashboard) None;
       hearth_api := mkService 3001 "up" None;
       hearth_promptBrowser := mkService 3002 (up_if_output promptBrowser) None;
       hearth_contactVerify := mkService 3003 (up_if_output contactVerify) None;
       hearth_litellm :=
         mkService 4000 (up_down (ok litellm)) (Some (latencyMs litellm));
       hearth_ollama := mkService 11434 (up_down (ok localOllama)) None;
       hearth_models := localModels;
       anvil_system := anvilSystem;
       anvil_lan := mkLink (ok anvilOllama) (latencyMs anvilOllama);
       anvil_tailscale := mkLink (ok anvilOllamaTs) (latencyMs anvilOllamaTs);
       anvil_ollama_status := up_down (ok anvilOllama);
       anvil_ollama_models := anvilModels;
       anvil_totalSizeGB := total_size_gb (map am_size anvilModels);
       routing_litellm_status := up_down (ok litellm);
       routing_litellm_port := LITELLM_PORT;
       routing_litellm_models := litellmModels;
       tailscale_device_list := tailscaleDevices;
       meshSize := length tailscaleDevices |}).

End WithPlatform.

End Fleet.

(* ===================================================================== *)
(** * A platform for the examples *)
(* ===================================================================== *)

Module Example.

Fixpoint until_char (stop : ascii) (s : string) : string * option string :=
  match s with
  | EmptyString => (EmptyString, None)
  | String c s' =>
      if Ascii.eqb c stop then (EmptyString, Some s')
      else let '(a, b) := until_char stop s' in (String c a, b)
  end.

Definition pair_of (piece : string) : string * string :=
  match until_char "=" piece with
  | (k, Some v) => (k, v)
  | (k, None) => (k, EmptyString)
  end.

(** Reads a request target [/path?name=value&name=value] in which nothing
    is escaped and the path has no dot segment: there the runtime's parser
    gives the same [pathname] and the same pairs. *)
Definition parse_target (target : string) : option URL :=
  match until_char "?" target with
  | (path, None) => Some (mkURL path [])
  | (path, Some query) =>
      Some (mkURL path
              (map pair_of
                   (filter (fun p => negb (String.eqb p ""))
                           (JsString.split "&" query))))
  end.

(** Reads the three JSON literals; any other text is taken as malformed,
    which is what the runtime answers on the texts the examples use. *)
Definition parse_literal (text : string) : option (json Z) :=
  if String.eqb text "null" then Some JNull
  else if String.eqb text "true" then Some (JBool true)
  else if String.eqb text "false" then Some (JBool false)
  else None.

(** A text of [n] letters. *)
Fixpoint filler (n : nat) : string :=
  match n with
  | O => EmptyString
  | S n' => String "x" (filler n')
  end.

(** Reads a buffer of ASCII bytes, each byte one code unit, which is what
    the runtime answers on the buffers the examples use. *)
Fixpoint read_ascii (buf : Buffer) : Utf16.code_units :=
  match buf with
  | EmptyString => []
  | String c buf' => N_of_ascii c :: read_ascii buf'
  end.

#[export] Instance platform : Platform := {
  num := Z;
  num_truthy := fun n => negb (Z.eqb n 0);
  URL_parse := parse_target;
  JSON_parse := parse_literal;
  Buffer_toString := read_ascii;
  match_label := fun _ _ => None;
  replace_up := fun s => s;
  trim := fun s => s;
  size_gb := fun _ => "0.0GB";
  total_size_gb := fun _ => "0.0"
}.

End Example.

(* ===================================================================== *)
(** * Facts about the string operations *)
(* ===================================================================== *)

Section StringFacts.

Lemma startsWith_prefix (p s : string) :
  JsString.startsWith p s = true <-> exists t, s = (p ++ t)%string.
Proof.
  revert s; induction p as [|a p IH]; intros s; simpl.
  - split; [intros _; now exists s | trivial].
  - destruct s as [|b s].
    + split; [discriminate | intros [t Ht]; discriminate].
    + rewrite andb_true_iff, Ascii.eqb_eq, IH. split.
      * intros [-> [t ->]]. now exists t.
      * intros [t Ht]. injection Ht as -> ->. split; [reflexivity | now exists t].
Qed.

(** [includes] is the substring test. *)
Lemma includes_substring (s sub : string) :
  JsString.includes s sub = true <-> exists a b, s = (a ++ sub ++ b)%string.
Proof.
  induction s as [|c s IH].
  - cbn [JsString.includes]. rewrite orb_false_r, startsWith_prefix. split.
    + intros [t Ht]. now exists EmptyString, t.
    + intros [a [b H]]. destruct a; [now exists b | discriminate].
  - cbn [JsString.includes]. rewrite orb_true_iff, startsWith_prefix, IH. split.
    + intros [[t Ht] | [a [b H]]].
      * now exists EmptyString, t.
      * exists (String c a), b. simpl. now rewrite H.
    + intros [a [b H]]. destruct a as [|c' a].
      * left. now exists b.
      * right. simpl in H. injection H as _ H. now exists a, b.
Qed.

Lemma includes_refl (s : string) : JsString.includes s s = true.
Proof.
  apply includes_substring. exists EmptyString, EmptyString.
  simpl. induction s as [|c s IH]; simpl; [reflexivity | now rewrite <- IH].
Qed.

Lemma or_default_nonempty (v d : string) :
  v <> EmptyString -> or_default (Some v) d = v.
Proof. destruct v; [congruence | reflexivity]. Qed.

Lemma includes_nonempty (v sub : string) :
  sub <> EmptyString -> JsString.includes v sub = true -> v <> EmptyString.
Proof.
  intros Hsub H ->. apply includes_substring in H as [a [b H]].
  destruct a; simpl in H; [destruct sub; [congruence | discriminate] | discriminate].
Qed.

End StringFacts.

(* ===================================================================== *)
(** * Agent health fusion: facts *)
(* ===================================================================== *)

Module AgentsFacts.
Import Agents.

(** The test of the fusion step, read on the key of an entry. *)
Definition key_matches (session : SessionAgent) (k : string) : bool :=
  String.eqb k (agentName session) || JsString.includes (agentName session) k.

(** Every entry of the map is filed under the [name] it carries. *)
Definition keys_named (m : HealthMap) : Prop :=
  Forall (fun e => fst e = name (snd e)) m.

Lemma map_set_keys_named (k : string) (v : AgentRecord) (m : HealthMap) :
  k = name v -> keys_named m -> keys_named (map_set k v m).
Proof.
  intros Hk Hm. induction Hm as [|[k' v'] m Hkv Hm IH]; simpl.
  - repeat constructor. exact Hk.
  - destruct (String.eqb_spec k' k) as [->|Hne].
    + constructor; [exact Hk | exact Hm].
    + constructor; assumption.
Qed.

Lemma update_first_keys_named (p : AgentRecord -> bool)
  (f : AgentRecord -> AgentRecord) (m m' : HealthMap) :
  (forall a, name (f a) = name a) ->
  keys_named m -> update_first p f m = Some m' -> keys_named m'.
Proof.
  intros Hf Hm. revert m'.
  induction Hm as [|[k v] m Hkv Hm IH]; simpl; intros m' H.
  - discriminate.
  - destruct (p v).
    + injection H as <-. constructor; [simpl in *; now rewrite Hf | exact Hm].
    + destruct (update_first p f m) as [m1|]; [|discriminate].
      injection H as <-. constructor; [exact Hkv | now apply IH].
Qed.

Lemma seed_from_keys_named (rows : list ProtocolAgent) (acc : HealthMap) :
  keys_named acc ->
  keys_named
    (fold_left (fun m agent => map_set (pa_name agent) (of_protocol agent) m)
               rows acc).
Proof.
  revert acc. induction rows as [|r rows IH]; simpl; intros acc Hacc.
  - exact Hacc.
  - apply IH. now apply map_set_keys_named.
Qed.

Lemma seed_keys_named (rows : list ProtocolAgent) : keys_named (seed rows).
Proof. apply seed_from_keys_named. constructor. Qed.

Lemma fuse_session_keys_named (m : HealthMap) (session : SessionAgent) :
  keys_named m -> keys_named (fuse_session m session).
Proof.
  intros Hm. unfold fuse_session.
  destruct (update_first (matches session) (enrich session) m) as [m'|] eqn:E.
  - eapply update_first_keys_named; [|exact Hm|exact E]. reflexivity.
  - now apply map_set_keys_named.
Qed.






Lemma map_set_new (k : string) (v : AgentRecord) (m : HealthMap) :
  Forall (fun e => fst e <> k) m -> map_set k v m = m ++ [(k, v)].
Proof.
  intros Hm. induction Hm as [|[k' v'] m Hk Hm IH]; simpl.
  - reflexivity.
  - simpl in Hk. destruct (String.eqb_spec k' k) as [E|_]; [contradiction|].
    now rewrite IH.
Qed.

Lemma map_set_length_le (k : string) (v : AgentRecord) (m : HealthMap) :
  (length m <= length (map_set k v m))%nat.
Proof.
  induction m as [|[k' v'] m IH]; simpl; [lia|].
  destruct (String.eqb k' k); simpl; lia.
Qed.



Lemma map_set_sourced (k : string) (v : AgentRecord) (m : HealthMap)
  (Q : AgentRecord -> Prop) :
  Q v -> Forall (fun e => Q (snd e)) m -> Forall (fun e => Q (snd e)) (map_set k v m).
Proof.
  intros Hv Hm. induction Hm as [|[k' v'] m Hq Hm IH]; simpl.
  - repeat constructor. exact Hv.
  - destruct (String.eqb k' k); constructor; assumption.
Qed.

Lemma seed_from_sourced (rows : list ProtocolAgent) (acc : HealthMap)
  (Q : AgentRecord -> Prop) :
  (forall r, In r rows -> Q (of_protocol r)) ->
  Forall (fun e => Q (snd e)) acc ->
  Forall (fun e => Q (snd e))
    (fold_left (fun m agent => map_set (pa_name agent) (of_protocol agent) m)
               rows acc).
Proof.
  revert acc. induction rows as [|r rows IH]; simpl; intros acc Hr Hacc.
  - exact Hacc.
  - apply IH; [intros; apply Hr; now right|].
    apply map_set_sourced; [apply Hr; now left | exact Hacc].
Qed.

(** ** What the seed holds *)










Lemma filter_disjoint_length {A : Type} (p q : A -> bool) (l : list A) :
  (forall a, p a = true -> q a = false) ->
  (length (filter p l) + length (filter q l) <= length l)%nat.
Proof.
  intros Hpq. induction l as [|a l IH]; simpl; [lia|].
  destruct (p a) eqn:Hp.
  - rewrite (Hpq a Hp). simpl. lia.
  - destruct (q a); simpl; lia.
Qed.

(** ** Fusing the same records a second time *)

(** The names of the entries, in order. *)
Definition names (m : HealthMap) : list string :=
  map (fun e => name (snd e)) m.

(** Some name of [pre] satisfies the test of [session]. *)
Definition blocked (pre : list string) (session : SessionAgent) : bool :=
  existsb (key_matches session) pre.

(** [session] is fused into the entry [a] that follows the names [pre]. *)
Definition owns (pre : list string) (a : AgentRecord) (session : SessionAgent)
  : bool :=
  negb (blocked pre session) && key_matches session (name a).

Definition apply_all (ss : list SessionAgent) (pre : list string)
  (a : AgentRecord) : AgentRecord :=
  fold_left (fun a s => if owns pre a s then enrich s a else a) ss a.

(** Every record of [ss] fused into the entry it is fused into, without
    adding entries. *)
Fixpoint refuse (ss : list SessionAgent) (pre : list string) (m : HealthMap)
  : HealthMap :=
  match m with
  | [] => []
  | (k, a) :: m' => (k, apply_all ss pre a) :: refuse ss (pre ++ [name a]) m'
  end.

(** Two records that differ at most in what a session record sets. *)
Definition same_fixed (a b : AgentRecord) : Prop :=
  name a = name b /\ id a = id b /\ model a = model b /\ status a = status b
  /\ focus a = focus b /\ source a = source b
  /\ protocolStatus a = protocolStatus b.

Lemma same_fixed_refl (a : AgentRecord) : same_fixed a a.
Proof. repeat split. Qed.

Lemma enrich_same_fixed (s : SessionAgent) (a b : AgentRecord) :
  same_fixed a b -> enrich s a = enrich s b.
Proof.
  intros [H1 [H2 [H3 [H4 [H5 [H6 H7]]]]]]. unfold enrich. congruence.
Qed.

Lemma apply_all_fixed (ss : list SessionAgent) (pre : list string)
  (a : AgentRecord) :
  same_fixed (apply_all ss pre a) a.
Proof.
  unfold apply_all. revert a. induction ss as [|s ss IH]; intros a; simpl.
  - apply same_fixed_refl.
  - destruct (owns pre a s).
    + destruct (IH (enrich s a)) as [H1 [H2 [H3 [H4 [H5 [H6 H7]]]]]].
      repeat split; assumption.
    + apply IH.
Qed.

Lemma apply_all_name (ss : list SessionAgent) (pre : list string)
  (a : AgentRecord) :
  name (apply_all ss pre a) = name a.
Proof. apply apply_all_fixed. Qed.

Lemma apply_all_app (ss1 ss2 : list SessionAgent) (pre : list string)
  (a : AgentRecord) :
  apply_all (ss1 ++ ss2) pre a = apply_all ss2 pre (apply_all ss1 pre a).
Proof. unfold apply_all. apply fold_left_app. Qed.

Lemma apply_all_blocked (ss : list SessionAgent) (pre : list string)
  (a : AgentRecord) :
  Forall (fun s => blocked pre s = true) ss -> apply_all ss pre a = a.
Proof.
  intros H. unfold apply_all. revert a.
  induction H as [|s ss Hs H IH]; intros a; cbn [fold_left].
  - reflexivity.
  - assert (Ho : owns pre a s = false) by (unfold owns; now rewrite Hs).
    rewrite Ho. apply IH.
Qed.

Lemma names_refuse (ss : list SessionAgent) (pre : list string) (m : HealthMap) :
  names (refuse ss pre m) = names m.
Proof.
  revert pre. induction m as [|[k a] m IH]; intros pre; simpl.
  - reflexivity.
  - now rewrite apply_all_name, IH.
Qed.

Lemma refuse_app (ss1 ss2 : list SessionAgent) (pre : list string)
  (m : HealthMap) :
  refuse (ss1 ++ ss2) pre m = refuse ss2 pre (refuse ss1 pre m).
Proof.
  revert pre. induction m as [|[k a] m IH]; intros pre; simpl.
  - reflexivity.
  - now rewrite apply_all_app, apply_all_name, IH.
Qed.

Lemma refuse_nil (pre : list string) (m : HealthMap) : refuse [] pre m = m.
Proof.
  revert pre. induction m as [|[k a] m IH]; intros pre; simpl.
  - reflexivity.
  - now rewrite IH.
Qed.

Lemma refuse_blocked (ss : list SessionAgent) (pre : list string)
  (m : HealthMap) :
  Forall (fun s => blocked pre s = true) ss -> refuse ss pre m = m.
Proof.
  revert pre. induction m as [|[k a] m IH]; intros pre H; simpl.
  - reflexivity.
  - rewrite (@apply_all_blocked ss pre a H), IH; [reflexivity|].
    eapply Forall_impl; [|exact H]. intros s Hs. unfold blocked in *.
    rewrite existsb_app, Hs. reflexivity.
Qed.

Lemma refuse_snoc (ss : list SessionAgent) (pre : list string)
  (m : HealthMap) (e : string * AgentRecord) :
  refuse ss pre (m ++ [e])
  = refuse ss pre m ++ [(fst e, apply_all ss (pre ++ names m) (snd e))].
Proof.
  revert pre. induction m as [|[k a] m IH]; intros pre; simpl.
  - destruct e as [k a]. simpl. now rewrite app_nil_r.
  - rewrite IH. simpl. now rewrite <- app_assoc.
Qed.

(** One step of the fusion, on a map whose entries after the names [pre]
    are [m], when no name of [pre] satisfies the test. *)
Lemma update_first_refuse (s : SessionAgent) (pre : list string)
  (m : HealthMap) :
  blocked pre s = false ->
  match update_first (matches s) (enrich s) m with
  | Some m' => m' = refuse [s] pre m /\ blocked (names m) s = true
  | None => refuse [s] pre m = m /\ blocked (names m) s = false
  end.
Proof.
  revert pre. induction m as [|[k a] m IH]; intros pre Hpre; simpl.
  - auto.
  - unfold apply_all, owns. simpl. rewrite Hpre. simpl.
    change (matches s a) with (key_matches s (name a)).
    destruct (key_matches s (name a)) eqn:Hm; simpl.
    + split; [|reflexivity]. f_equal. symmetry. apply refuse_blocked.
      constructor; [|constructor]. unfold blocked. rewrite existsb_app. simpl.
      rewrite Hm. now rewrite orb_true_r.
    + assert (Hpre' : blocked (pre ++ [name a]) s = false).
      { unfold blocked in *. rewrite existsb_app, Hpre. simpl. now rewrite Hm. }
      specialize (IH _ Hpre').
      destruct (update_first (matches s) (enrich s) m) as [m'|]; simpl.
      * destruct IH as [-> Hb]. split; [reflexivity | exact Hb].
      * destruct IH as [-> Hb]. split; [reflexivity | exact Hb].
Qed.

(** A step on a map in which the record has an entry adds none. *)
Lemma fuse_session_refuse (s : SessionAgent) (m : HealthMap) :
  blocked (names m) s = true -> fuse_session m s = refuse [s] [] m.
Proof.
  intros Hb. unfold fuse_session.
  pose proof (@update_first_refuse s [] m eq_refl) as H.
  destruct (update_first (matches s) (enrich s) m) as [m'|].
  - apply H.
  - destruct H as [_ H]. congruence.
Qed.

Lemma fold_fuse_refuse (ss : list SessionAgent) (m : HealthMap) :
  Forall (fun s => blocked (names m) s = true) ss ->
  fold_left fuse_session ss m = refuse ss [] m.
Proof.
  revert m. induction ss as [|s ss IH]; intros m H; simpl.
  - now rewrite refuse_nil.
  - inversion H as [|? ? Hs Hss]; subst.
    rewrite (fuse_session_refuse _ _ Hs).
    rewrite IH.
    + change (s :: ss) with ([s] ++ ss). now rewrite refuse_app.
    + now rewrite names_refuse.
Qed.

(** Fusing [s] once more after the records of [ss], into a map on which
    fusing [ss] changes nothing, gives what fusing [s] alone gives. *)
Lemma refuse_absorbs (ss : list SessionAgent) (s : SessionAgent)
  (pre : list string) (m : HealthMap) :
  refuse ss pre m = m ->
  refuse [s] pre (refuse ss pre (refuse [s] pre m)) = refuse [s] pre m.
Proof.
  revert pre. induction m as [|[k a] m IH]; intros pre H; cbn [refuse].
  - reflexivity.
  - cbn [refuse] in H. injection H as Ha Hm.
    rewrite !apply_all_name. rewrite (IH _ Hm). f_equal. f_equal.
    unfold apply_all at 1 3 4. cbn [fold_left].
    destruct (owns pre a s) eqn:Ho.
    + assert (Ho' : owns pre (apply_all ss pre (enrich s a)) s = true).
      { unfold owns in *. now rewrite apply_all_name. }
      rewrite Ho'. apply enrich_same_fixed.
      destruct (apply_all_fixed ss pre (enrich s a))
        as [H1 [H2 [H3 [H4 [H5 [H6 H7]]]]]].
      repeat split; assumption.
    + rewrite Ha. now rewrite Ho.
Qed.

(** What the fusion keeps true while it runs over the records: the keys are
    the names, every record fused so far has an entry, and fusing those
    records again changes nothing. *)
Definition fused (done : list SessionAgent) (m : HealthMap) : Prop :=
  keys_named m
  /\ Forall (fun s => blocked (names m) s = true) done
  /\ refuse done [] m = m.

Lemma blocked_names_mono (s : SessionAgent) (m : HealthMap)
  (e : string * AgentRecord) :
  blocked (names m) s = true -> blocked (names (m ++ [e])) s = true.
Proof.
  intros H. unfold blocked, names in *. rewrite map_app, existsb_app, H.
  reflexivity.
Qed.

Lemma no_match_no_key (s : SessionAgent) (m : HealthMap) :
  keys_named m -> blocked (names m) s = false ->
  Forall (fun e => fst e <> agentName s) m.
Proof.
  intros Hk. induction Hk as [|[k a] m Hka Hk IH]; simpl; intros Hb.
  - constructor.
  - apply orb_false_iff in Hb as [Hm Hb]. constructor; [|now apply IH].
    simpl in *. intros ->. unfold key_matches in Hm. rewrite <- Hka in Hm.
    now rewrite String.eqb_refl in Hm.
Qed.

Lemma fused_step (done : list SessionAgent) (s : SessionAgent) (m : HealthMap) :
  fused done m -> fused (done ++ [s]) (fuse_session m s).
Proof.
  intros [Hk [Hhit Hfix]].
  split; [now apply fuse_session_keys_named|].
  unfold fuse_session.
  pose proof (@update_first_refuse s [] m eq_refl) as H.
  destruct (update_first (matches s) (enrich s) m) as [m'|].
  - destruct H as [-> Hb]. split.
    + rewrite names_refuse. apply Forall_app. split; [exact Hhit|].
      constructor; [exact Hb | constructor].
    + rewrite refuse_app. now apply refuse_absorbs.
  - destruct H as [Hsame Hb].
    rewrite (map_set_new _ (no_match_no_key s Hk Hb)).
    assert (Hnew : blocked (names (m ++ [(agentName s, of_session s)])) s = true).
    { unfold blocked, names. rewrite map_app, existsb_app. simpl.
      unfold key_matches at 2. rewrite String.eqb_refl. simpl.
      now rewrite orb_true_r. }
    split.
    + apply Forall_app. split; [|constructor; [exact Hnew | constructor]].
      eapply Forall_impl; [|exact Hhit]. intros s' Hs'.
      now apply blocked_names_mono.
    + rewrite refuse_snoc. simpl.
      rewrite refuse_app, Hfix, Hsame. f_equal. f_equal.
      rewrite apply_all_app, (@apply_all_blocked done (names m) _ Hhit).
      unfold apply_all, owns. simpl. rewrite Hb. simpl.
      unfold key_matches. now rewrite String.eqb_refl.
Qed.

Lemma fused_fold (ss done : list SessionAgent) (m : HealthMap) :
  fused done m -> fused (done ++ ss) (fold_left fuse_session ss m).
Proof.
  revert done m. induction ss as [|s ss IH]; intros done m H; simpl.
  - now rewrite app_nil_r.
  - change (s :: ss) with ([s] ++ ss). rewrite app_assoc.
    apply IH. now apply fused_step.
Qed.

(** Fusing the records again into the map they produced changes nothing. *)
Lemma fold_fuse_idempotent (ss : list SessionAgent) (m : HealthMap) :
  keys_named m ->
  fold_left fuse_session ss (fold_left fuse_session ss m)
  = fold_left fuse_session ss m.
Proof.
  intros Hk.
  assert (H0 : fused [] m).
  { split; [exact Hk | split; [constructor | apply refuse_nil]]. }
  destruct (fused_fold ss H0) as [_ [Hhit Hfix]]. simpl in Hhit, Hfix.
  rewrite (fold_fuse_refuse _ Hhit). exact Hfix.
Qed.

End AgentsFacts.

Module AgentsSpec.
Import Agents AgentsFacts.




(** C8.  Two runs of [getAgentHealth] over the same protocol rows and
    session records return the same agents and the same summary, whatever
    the process listing and the clock reading of each run; fusing the
    recently active records a second time into the mapping they produced
    leaves it as it is; and in every summary
    [active + parked <= total]. *)
Theorem fusion_idempotent_and_counts_bounded
  (rows : list ProtocolAgent) (sessions : list SessionAgent)
  (procs1 procs2 : list ProcessAgent) (now1 now2 : string) :
  let run1 := getAgentHealth rows procs1 sessions now1 in
  let run2 := getAgentHealth rows procs2 sessions now2 in
  agents run1 = agents run2
  /\ summary run1 = summary run2
  /\ fold_left fuse_session (filter isRecentlyActive sessions)
               (fuse rows sessions)
     = fuse rows sessions
  /\ (active (summary run1) + parked (summary run1) <= total (summary run1))%nat.
Proof.
  intros run1 run2.
  split; [reflexivity | split; [reflexivity | split]].
  - unfold fuse. apply fold_fuse_idempotent, seed_keys_named.
  - simpl. rewrite <- (length_map snd (fuse rows sessions)).
    apply filter_disjoint_length.
    intros a Ha. apply String.eqb_eq in Ha. rewrite Ha. reflexivity.
Qed.

(** Two recently active logs of one unregistered agent, and a parked row. *)
Example fusion_counts_example :
  let rows := [mkProtocolAgent "A1" "Watcher" "sonnet" "cli" "Parked" "monitoring"] in
  let s1 := mkSessionAgent "b.md" "Scribe" "Active" "notes" "opus"
                           "2026-01-01T11:00:00.000Z" 60000 (recent 60000) in
  let s2 := mkSessionAgent "a.md" "Scribe" "Unknown" "" ""
                           "2026-01-01T10:00:00.000Z" 3660000 (recent 3660000) in
  summary (getAgentHealth rows [] [s1; s2] "2026-01-01T11:01:00.000Z")
  = mkSummary 2 1 1 1.
Proof. reflexivity. Qed.

End AgentsSpec.

(* ===================================================================== *)
(** * The probe: facts *)
(* ===================================================================== *)

Module ProbeFacts.
Import Fleet.

Definition is_response (ev : HttpEvent) : bool :=
  match ev with
  | Response _ => true
  | _ => false
  end.

(** No event of [evs] settles the promise; [seen] tells whether the
    response callback ran before [evs]. *)
Fixpoint quiet (seen : bool) (evs : list HttpEvent) : bool :=
  match evs with
  | [] => true
  | ev :: evs' => negb (settles seen ev) && quiet (seen || is_response ev) evs'
  end.

Section WithPlatform.
Context {P : Platform}.

(** The status code and the text the listeners have gathered over [evs]:
    each chunk is decoded by itself and appended. *)
Fixpoint received_from (acc : option (Z * Utf16.code_units))
  (evs : list HttpEvent) : option (Z * Utf16.code_units) :=
  match evs with
  | [] => acc
  | Response code :: evs' => received_from (Some (code, [])) evs'
  | Data d :: evs' =>
      received_from
        (option_map (fun cb => (fst cb, snd cb ++ Buffer_toString d)) acc) evs'
  | _ :: evs' => received_from acc evs'
  end.

Definition view (st : ProbeState) : option (Z * Utf16.code_units) :=
  match response st with
  | Some code => Some (code, body st)
  | None => None
  end.

Definition seen (st : ProbeState) : bool :=
  match response st with
  | Some _ => true
  | None => false
  end.

Lemma resolve_settled (v v0 : ProbeResult) (st : ProbeState) :
  settled st = Some v0 -> resolve v st = st.
Proof. intros H. unfold resolve. now rewrite H. Qed.

Lemma resolve_pending (v : ProbeResult) (st : ProbeState) :
  settled st = None -> settled (resolve v st) = Some v.
Proof. intros H. unfold resolve. now rewrite H. Qed.

(** No listener raises: the only call that can, [JSON.parse], sits in a
    [try] whose [catch] resolves. *)
Lemma on_event_returns (t : Z) (st : ProbeState) (ev : HttpEvent) :
  exists st', on_event t st ev = Ok st'.
Proof.
  destruct ev; simpl; eauto.
  - destruct (response st); eauto.
  - destruct (response st); eauto. unfold on_end, JSON_parse_r.
    destruct (JSON_parse (Utf16.to_text (body st))); simpl; eauto.
Qed.

Lemma on_event_keeps_settled (t : Z) (st st' : ProbeState) (ev : HttpEvent)
  (v : ProbeResult) :
  settled st = Some v -> on_event t st ev = Ok st' -> settled st' = Some v.
Proof.
  intros Hs. destruct ev; simpl.
  - intros H; injection H as <-. exact Hs.
  - destruct (response st); intros H; injection H as <-; exact Hs.
  - destruct (response st); [|intros H; injection H as <-; exact Hs].
    unfold on_end, JSON_parse_r. destruct (JSON_parse (Utf16.to_text (body st))); simpl;
      intros H; injection H as <-; now rewrite (resolve_settled _ st Hs).
  - intros H; injection H as <-. now rewrite (resolve_settled _ st Hs).
  - intros H; injection H as <-. unfold resolve, destroy. simpl. now rewrite Hs.
  - intros H; injection H as <-. exact Hs.
Qed.

Lemma run_events_returns (t : Z) (evs : list HttpEvent) (st : ProbeState) :
  exists st', run_events t st evs = Ok st'.
Proof.
  revert st. induction evs as [|ev evs IH]; intros st; simpl.
  - eauto.
  - destruct (on_event_returns t st ev) as [st1 ->]. simpl. apply IH.
Qed.

Lemma run_events_keeps_settled (t : Z) (evs : list HttpEvent)
  (st st' : ProbeState) (v : ProbeResult) :
  settled st = Some v -> run_events t st evs = Ok st' -> settled st' = Some v.
Proof.
  revert st. induction evs as [|ev evs IH]; intros st Hs; simpl.
  - intros H; injection H as <-. exact Hs.
  - destruct (on_event t st ev) as [st1|e] eqn:E; simpl; [|discriminate].
    apply IH. eapply on_event_keeps_settled; eassumption.
Qed.

Lemma run_events_app (t : Z) (pre post : list HttpEvent) (st : ProbeState) :
  run_events t st (pre ++ post)
  = rbind (run_events t st pre) (fun st' => run_events t st' post).
Proof.
  revert st. induction pre as [|ev pre IH]; intros st; simpl.
  - reflexivity.
  - destruct (on_event t st ev); simpl; [apply IH | reflexivity].
Qed.

Lemma received_from_cons (acc : option (Z * Utf16.code_units)) (ev : HttpEvent)
  (evs : list HttpEvent) :
  received_from acc (ev :: evs) = received_from (received_from acc [ev]) evs.
Proof. destruct ev; reflexivity. Qed.

Lemma on_event_quiet (t : Z) (st : ProbeState) (ev : HttpEvent) :
  settled st = None ->
  settles (seen st) ev = false ->
  exists st1,
    on_event t st ev = Ok st1
    /\ settled st1 = None
    /\ start st1 = start st
    /\ view st1 = received_from (view st) [ev]
    /\ seen st1 = seen st || is_response ev.
Proof.
  intros Hs Hev. unfold seen, view in *.
  destruct ev; simpl in *; try discriminate.
  - eexists; repeat apply conj; try reflexivity; simpl; auto.
    now rewrite orb_true_r.
  - destruct (response st) as [code|] eqn:R.
    + eexists; repeat apply conj; try reflexivity; simpl; auto; now rewrite R.
    + exists st. rewrite R. auto.
  - destruct (response st) as [code|] eqn:R; [discriminate|].
    exists st. rewrite R. auto.
  - exists st. destruct (response st); rewrite ?orb_false_r; auto.
Qed.

(** Over events that do not settle, the promise stays pending and the
    listeners gather what [received_from] says. *)
Lemma run_events_quiet (t : Z) (pre : list HttpEvent) (st : ProbeState) :
  settled st = None ->
  quiet (seen st) pre = true ->
  exists st',
    run_events t st pre = Ok st'
    /\ settled st' = None
    /\ start st' = start st
    /\ view st' = received_from (view st) pre.
Proof.
  revert st. induction pre as [|ev pre IH]; intros st Hs Hq.
  - simpl. eauto.
  - cbn [quiet] in Hq. apply andb_true_iff in Hq as [Hev Hq].
    apply negb_true_iff in Hev.
    destruct (on_event_quiet t st ev Hs Hev) as [st1 [E [Hs1 [Hst1 [Hv1 Hseen]]]]].
    rewrite <- Hseen in Hq.
    destruct (IH st1 Hs1 Hq) as [st' [H1 [H2 [H3 H4]]]].
    exists st'. cbn [run_events]. rewrite E. cbn [rbind].
    rewrite received_from_cons, <- Hv1, <- Hst1. auto.
Qed.

Lemma seen_after_quiet (t : Z) (pre : list HttpEvent) (st st' : ProbeState) :
  run_events t st pre = Ok st' ->
  seen st' = seen st || existsb is_response pre.
Proof.
  revert st. induction pre as [|ev pre IH]; intros st; simpl.
  - intros H; injection H as <-. now rewrite orb_false_r.
  - destruct (on_event t st ev) as [st1|] eqn:E; simpl; [|discriminate].
    intros H. rewrite (IH _ H). rewrite orb_assoc. f_equal.
    destruct ev; simpl in E.
    + injection E as <-. unfold seen. simpl. now rewrite orb_true_r.
    + unfold seen. destruct (response st) eqn:R; injection E as <-; simpl;
        rewrite ?R; reflexivity.
    + unfold seen. destruct (response st) eqn:R.
      * unfold on_end, JSON_parse_r in E.
        destruct (JSON_parse (Utf16.to_text (body st))); simpl in E; injection E as <-;
          unfold resolve; destruct (settled st); simpl; rewrite ?R; reflexivity.
      * injection E as <-. now rewrite R.
    + injection E as <-. unfold seen, resolve. destruct (settled st); simpl;
        now rewrite orb_false_r.
    + injection E as <-. unfold seen, resolve, destroy. simpl.
      destruct (settled st); simpl; now rewrite orb_false_r.
    + injection E as <-. now rewrite orb_false_r.
Qed.

(** The promise after [pre ++ ev :: post] when [pre] is quiet: [ev] is
    handled in a pending state [st], and what it settles stays. *)
Lemma probe_decided_by (host path : string) (port : Z) (timeout_opt : option Z)
  (started : Z) (pre post : list HttpEvent) (ev : HttpEvent) :
  quiet false pre = true ->
  exists st,
    settled st = None
    /\ start st = started
    /\ view st = received_from None pre
    /\ seen st = existsb is_response pre
    /\ forall st1 v,
         on_event (match timeout_opt with Some t => t | None => 3000%Z end) st ev
           = Ok st1 ->
         settled st1 = Some v ->
         probe host port path timeout_opt started (pre ++ ev :: post)
           = Ok (Some v).
Proof.
  intros Hq. set (t := match timeout_opt with Some t => t | None => 3000%Z end).
  destruct (@run_events_quiet t pre
              (mkProbeState started None [] None false) eq_refl Hq)
    as [st [Hrun [Hs [Hstart Hview]]]].
  exists st. repeat split; try assumption.
  { now rewrite (seen_after_quiet _ _ _ Hrun). }
  intros st1 v Hev Hv. unfold probe. fold t.
  rewrite run_events_app, Hrun. simpl. rewrite Hev. simpl.
  destruct (run_events_returns t post st1) as [st2 Hpost].
  rewrite Hpost. simpl. f_equal. eapply run_events_keeps_settled; eassumption.
Qed.

Lemma quiet_false_split (evs : list HttpEvent) (s : bool) :
  quiet s evs = false ->
  exists pre ev post,
    evs = pre ++ ev :: post /\ quiet s pre = true
    /\ settles (s || existsb is_response pre) ev = true.
Proof.
  revert s. induction evs as [|ev evs IH]; intros s H; simpl in H.
  - discriminate.
  - destruct (settles s ev) eqn:E.
    + exists [], ev, evs. simpl. rewrite orb_false_r. auto.
    + simpl in H. destruct (IH _ H) as [pre [ev' [post [-> [Hq Hs]]]]].
      exists (ev :: pre), ev', post. simpl. rewrite E. simpl.
      rewrite <- orb_assoc in Hs. auto.
Qed.

Lemma received_chunks (code : Z) (chunks : list Buffer)
  (text : Utf16.code_units) :
  received_from (Some (code, text)) (map Data chunks)
  = Some (code, text ++ concat (map Buffer_toString chunks)).
Proof.
  revert text. induction chunks as [|d chunks IH]; intros text.
  - simpl. now rewrite app_nil_r.
  - cbn [map received_from option_map fst snd concat]. rewrite IH.
    now rewrite <- app_assoc.
Qed.

Lemma quiet_chunks (chunks : list Buffer) (rest : list HttpEvent) :
  quiet true (map Data chunks ++ rest) = quiet true rest.
Proof. induction chunks; simpl; auto. Qed.

(** Over events that do not settle, the promise is pending. *)
Lemma probe_pending_while_quiet (host path : string) (port : Z)
  (timeout_opt : option Z) (started : Z) (evs : list HttpEvent) :
  quiet false evs = true ->
  probe host port path timeout_opt started evs = Ok None.
Proof.
  intros Hq. unfold probe.
  set (t := match timeout_opt with Some t => t | None => 3000%Z end).
  destruct (@run_events_quiet t evs
              (mkProbeState started None [] None false) eq_refl Hq)
    as [st [Hrun [Hs _]]].
  rewrite Hrun. simpl. now rewrite Hs.
Qed.

End WithPlatform.

End ProbeFacts.

Module ProbeSpec.
Import Fleet ProbeFacts.

(** Whatever the events, no listener of [probe] raises, and the promise is
    resolved as soon as an event settles it.  When the first settling event
    is the timeout, the value is
    [{ok: false, latencyMs: timeout, timeout: true}]; when it is a
    connection error, the value is [{ok: false, latencyMs: now - start}]
    and carries no [timeout] key. *)
Lemma probe_resolves_when_settled {P : Platform}
  (host : string) (port : Z) (path : string) (timeout_opt : option Z)
  (started : Z) (evs : list HttpEvent) :
  let timeout_ms := match timeout_opt with Some t => t | None => 3000%Z end in
  (exists outcome, probe host port path timeout_opt started evs = Ok outcome)
  /\ (quiet false evs = false ->
        exists v, probe host port path timeout_opt started evs = Ok (Some v))
  /\ (forall pre post,
        evs = pre ++ Timeout :: post -> quiet false pre = true ->
        probe host port path timeout_opt started evs
        = Ok (Some (mkProbeResult false timeout_ms None None (Some true))))
  /\ (forall pre post now,
        evs = pre ++ Error now :: post -> quiet false pre = true ->
        probe host port path timeout_opt started evs
        = Ok (Some (mkProbeResult false (now - started) None None None))).
Proof.
  intros timeout_ms. split; [|split; [|split]].
  - unfold probe. fold timeout_ms.
    destruct (run_events_returns timeout_ms evs
                (mkProbeState started None [] None false)) as [st ->].
    simpl. eauto.
  - intros Hq. apply quiet_false_split in Hq as [pre [ev [post [-> [Hq Hev]]]]].
    destruct (probe_decided_by host path port timeout_opt started pre post ev Hq)
      as [st [Hs [Hstart [Hview [Hseen Hdec]]]]].
    fold timeout_ms in Hdec. simpl in Hev. rewrite <- Hseen in Hev.
    destruct ev; simpl in Hev; try discriminate.
    + unfold seen in Hev. destruct (response st) as [code|] eqn:R; [|discriminate].
      destruct (on_event_returns timeout_ms st (End_ now)) as [st1 E].
      assert (Hsome : exists v, settled st1 = Some v).
      { simpl in E. rewrite R in E. unfold on_end, JSON_parse_r in E.
        destruct (JSON_parse (Utf16.to_text (body st))); simpl in E;
          injection E as <-; rewrite resolve_pending by exact Hs; eauto. }
      destruct Hsome as [v Hv]. exists v. eapply Hdec; eassumption.
    + eexists. eapply Hdec; [reflexivity|]. now apply resolve_pending.
    + eexists. eapply Hdec; [reflexivity|]. now apply resolve_pending.
  - intros pre post -> Hq.
    destruct (probe_decided_by host path port timeout_opt started pre post Timeout Hq)
      as [st [Hs [Hstart [Hview [Hseen Hdec]]]]].
    eapply Hdec; [reflexivity|]. now apply resolve_pending.
  - intros pre post now -> Hq.
    destruct (probe_decided_by host path port timeout_opt started pre post (Error now) Hq)
      as [st [Hs [Hstart [Hview [Hseen Hdec]]]]].
    eapply Hdec; [reflexivity|]. rewrite Hstart. now apply resolve_pending.
Qed.

(** A request that times out before any response, and one refused at once. *)
Lemma probe_failure_examples :
  probe (P := Example.platform) "192.168.1.105" 11434 "/api/tags" None 1000
        [Timeout; Error 4001]
  = Ok (Some (mkProbeResult false 3000 None None (Some true)))
  /\ probe (P := Example.platform) "192.168.1.105" 11434 "/api/tags" None 1000
        [Error 1002]
     = Ok (Some (mkProbeResult false 2 None None None)).
Proof.
  split.
  - exact (proj1 (proj2 (proj2 (@probe_resolves_when_settled
             Example.platform "192.168.1.105" 11434 "/api/tags" None 1000
             [Timeout; Error 4001])))
             [] [Error 4001] eq_refl eq_refl).
  - exact (proj2 (proj2 (proj2 (@probe_resolves_when_settled
             Example.platform "192.168.1.105" 11434 "/api/tags" None 1000
             [Error 1002])))
             [] [] 1002%Z eq_refl eq_refl).
Defined.

(** C2, at the input on which the code departs from it: the probed server
    sends its status line and headers, then any part of a body, and the
    connection closes before the response is complete.  The response then
    emits ['aborted'] and ['close'] and no ['end'], the request emits no
    ['error'], and [probe] listens to neither of the former: whatever the
    target, the timeout, the status code and the chunks received, the
    promise is not resolved, with no [ProbeResult] at all. *)
Theorem probe_pending_after_aborted_response {P : Platform}
  (host : string) (port : Z) (path : string) (timeout_opt : option Z)
  (started code : Z) (chunks : list Buffer) :
  probe host port path timeout_opt started
        (Response code :: map Data chunks ++ [Aborted])
  = Ok None.
Proof.
  apply probe_pending_while_quiet.
  cbn [quiet settles is_response negb orb andb]. now rewrite quiet_chunks.
Qed.

(** C4.  When the response of a probe ends before anything else settles the
    promise and its text is not JSON, the promise is resolved with
    [ok: true], the status code, and as [data] the first 500 code units of
    the text, the text being the chunks received, each decoded by itself,
    one after the other; the parse error goes no further. *)
Theorem probe_parse_failure_keeps_ok {P : Platform}
  (host : string) (port : Z) (path : string) (timeout_opt : option Z)
  (started : Z) (pre post : list HttpEvent) (now code : Z)
  (text : Utf16.code_units) :
  quiet false pre = true ->
  received_from None pre = Some (code, text) ->
  JSON_parse (Utf16.to_text text) = None ->
  probe host port path timeout_opt started (pre ++ End_ now :: post)
  = Ok (Some (mkProbeResult true (now - started) (Some code)
                (Some (JStr (Utf16.to_text (firstn 500 text)))) None)).
Proof.
  intros Hq Hrecv Hparse.
  destruct (probe_decided_by host path port timeout_opt started pre post (End_ now) Hq)
    as [st [Hs [Hstart [Hview [Hseen Hdec]]]]].
  rewrite Hrecv in Hview. unfold view in Hview.
  destruct (response st) as [c|] eqn:R; [|discriminate].
  injection Hview as -> Hbody.
  eapply Hdec.
  - simpl. rewrite R. unfold on_end, JSON_parse_r. rewrite Hbody, Hparse. simpl.
    reflexivity.
  - rewrite Hstart. now apply resolve_pending.
Qed.

(** A response of 200 carrying an HTML page of 606 characters, received in
    two chunks: [data] is its first 500 characters. *)
Lemma probe_parse_failure_example :
  probe (P := Example.platform) "127.0.0.1" 4000 "/health/readiness" None 1000
        ([Response 200; Data "<html>"; Data (Example.filler 600)]
           ++ End_ 1012 :: [Timeout])
  = Ok (Some (mkProbeResult true 12 (Some 200%Z)
                (Some (JStr ("<html>" ++ Example.filler 494)%string)) None)).
Proof.
  refine (eq_trans
            (@probe_parse_failure_keeps_ok Example.platform
               "127.0.0.1" 4000 "/health/readiness" None 1000
               [Response 200; Data "<html>"; Data (Example.filler 600)] [Timeout]
               1012 200
               (Example.read_ascii ("<html>" ++ Example.filler 600)%string)
               _ _ _) _);
    vm_compute; reflexivity.
Defined.

End ProbeSpec.

(* ===================================================================== *)
(** * The fleet snapshot *)
(* ===================================================================== *)

Module FleetSpec.
Import Fleet.

Definition example_world (answer : string -> Z -> string -> ProbeResult)
  : World (P := Example.platform) :=
  mkWorld (P := Example.platform) answer (fun _ _ => Throw ExecError) None
          "hearth" 12 64%Z 32%Z [] "2026-01-01T00:00:00.000Z".

(** A world in which every probed server answers 200 with the JSON text
    [{"models": true}], and every command fails. *)
Definition world_models_true : World (P := Example.platform) :=
  example_world (fun _ _ _ =>
    mkProbeResult true 5 (Some 200%Z) (Some (JObj [("models", JBool true)])) None).

(** A world in which no probed server answers and every command fails. *)
Definition world_all_down : World (P := Example.platform) :=
  example_world (fun _ _ _ => mkProbeResult false 3000 None None (Some true)).

(** A world in which the LAN probe of Anvil answers an empty model list,
    no other probed server answers, and every command fails. *)
Definition world_anvil_up : World (P := Example.platform) :=
  example_world (fun host _ _ =>
    if String.eqb host ANVIL_LAN
    then mkProbeResult true 7 (Some 200%Z) (Some (JObj [("models", JArr [])])) None
    else mkProbeResult false 3000 None None (Some true)).

Section WithPlatform.
Context {P : Platform}.
Variable w : World.

Definition anvilOllama : ProbeResult :=
  probe_answer w ANVIL_LAN ANVIL_OLLAMA "/api/tags".
Definition litellm : ProbeResult :=
  probe_answer w "127.0.0.1" LITELLM_PORT "/health/readiness".
Definition localOllama : ProbeResult :=
  probe_answer w "127.0.0.1" ANVIL_OLLAMA "/api/tags".

Definition probes : list Action :=
  [AProbe ANVIL_LAN ANVIL_OLLAMA "/api/tags";
   AProbe ANVIL_TS ANVIL_OLLAMA "/api/tags";
   AProbe "127.0.0.1" LITELLM_PORT "/health/readiness";
   AProbe "127.0.0.1" ANVIL_OLLAMA "/api/tags"].

(** The calls of one run of the handler, in order. *)
Definition fleet_actions : list Action :=
  probes ++
  match models_of anvilOllama anvil_model, models_of localOllama local_model with
  | Ok _, Ok _ =>
      (if ok anvilOllama then [ARun ssh_command] else [])
      ++ [ARun "uptime"; ARun "df -h / | tail -1"]
      ++ (if ok litellm then [AGetModels] else [])
      ++ [ARun "tailscale status --json 2>/dev/null";
          ARun "/usr/sbin/lsof -ti:3000";
          ARun "/usr/sbin/lsof -ti:3002";
          ARun "/usr/sbin/lsof -ti:3003"]
  | _, _ => []
  end.

Lemma getAnvilSystem_log (log : list Action) :
  fst (getAnvilSystem w log) = log ++ [ARun ssh_command]
  /\ exists r, snd (getAnvilSystem w log) = Ok r.
Proof.
  unfold getAnvilSystem, run, bind, emit, ret. cbn [fst snd].
  destruct (execSync w ssh_command 8000) as [out|e]; cbn [fst snd].
  - destruct (trim out); cbn [fst snd]; eauto.
  - eauto.
Qed.

Lemma bind_run {A B : Type} (c : M A) (k : A -> M B) (log log' : list Action)
  (a : A) :
  c log = (log', Ok a) -> bind c k log = k a log'.
Proof. intros H. unfold bind. now rewrite H. Qed.

Lemma fleet_handler_actions : fst (fleet_handler w []) = fleet_actions.
Proof.
  unfold fleet_handler, fleet_actions, await_probe.
  unfold bind at 1 2 3 4 5 6 7 8. cbn [emit ret app fst snd].
  fold anvilOllama litellm localOllama.
  unfold bind at 1. unfold lift at 1.
  destruct (models_of anvilOllama anvil_model) as [am|e]; [|reflexivity].
  unfold bind at 1. unfold lift at 1.
  destruct (models_of localOllama local_model) as [lm|e]; [|reflexivity].
  unfold bind at 1.
  assert (Hsys : exists log1 sys,
             (if ok anvilOllama then getAnvilSystem w else ret None)
               (probes) = (log1, Ok sys)
             /\ log1 = probes ++ (if ok anvilOllama then [ARun ssh_command] else [])).
  { destruct (ok anvilOllama).
    - destruct (getAnvilSystem_log probes) as [H1 [r H2]].
      destruct (getAnvilSystem w probes) as [l v]. simpl in *. subst. eauto.
    - eexists _, _. split; [reflexivity|]. now rewrite app_nil_r. }
  destruct Hsys as [log1 [sys [Hsys ->]]].
  unfold probes in Hsys at 1. unfold probes at 1. rewrite Hsys.
  unfold getHearthSystem, run, fetch_models.
  unfold bind, emit, ret. cbn [fst snd].
  destruct (ok litellm); cbn [fst snd]; rewrite <- !app_assoc; reflexivity.
Qed.


(** When both model lists can be built, the handler returns 200 and the
    body reports each source by itself. *)
Lemma fleet_handler_returns (am : list AnvilModel) (lm : list LocalModel) :
  models_of anvilOllama anvil_model = Ok am ->
  models_of localOllama local_model = Ok lm ->
  exists body,
    snd (fleet_handler w []) = Ok (mkFleetResponse 200 body)
    /\ anvil_lan body = mkLink (ok anvilOllama) (latencyMs anvilOllama)
    /\ anvil_ollama_status body = up_down (ok anvilOllama)
    /\ anvil_ollama_models body = am
    /\ hearth_models body = lm
    /\ (ok anvilOllama = false -> anvil_system body = None)
    /\ svc_status (hearth_litellm body) = up_down (ok litellm)
    /\ svc_status (hearth_ollama body) = up_down (ok localOllama)
    /\ (ok litellm = false -> routing_litellm_models body = [])
    /\ meshSize body = length (tailscale_device_list body)
    /\ (execSync w "tailscale status --json 2>/dev/null" 5000 = Throw ExecError ->
         tailscale_device_list body = []).
Proof.
  intros Ham Hlm.
  unfold fleet_handler, await_probe.
  unfold bind at 1 2 3 4 5 6 7 8. cbn [emit ret app fst snd].
  fold anvilOllama litellm localOllama.
  unfold bind at 1. unfold lift at 1. rewrite Ham.
  unfold bind at 1. unfold lift at 1. rewrite Hlm.
  unfold bind at 1.
  assert (Hsys : exists log1 sys,
             (if ok anvilOllama then getAnvilSystem w else ret None)
               probes = (log1, Ok sys)
             /\ (ok anvilOllama = false -> sys = None)).
  { destruct (ok anvilOllama).
    - destruct (getAnvilSystem_log probes) as [H1 [r H2]].
      destruct (getAnvilSystem w probes) as [l v]. simpl in *. subst.
      eexists _, _. split; [reflexivity | discriminate].
    - eexists _, _. split; [reflexivity | reflexivity]. }
  destruct Hsys as [log1 [sys [Hsys Hnone]]].
  unfold probes in Hsys at 1. rewrite Hsys.
  unfold getHearthSystem, run, fetch_models.
  unfold bind, emit, ret. cbn [fst snd].
  destruct (ok litellm) eqn:Hl; cbn [fst snd];
    (eexists; split; [reflexivity|]); cbn;
    repeat (split; [try reflexivity; try assumption; try discriminate|]);
    try (intros ->; reflexivity); intros H; rewrite H; reflexivity.
Qed.

End WithPlatform.

(** C7.  In a run of the handler of [GET /api/fleet], the SSH inspection of
    Anvil is among the calls made only if the LAN probe of Anvil resolved
    with [ok: true], and it comes after that probe; after a probe that
    failed or timed out it is not made. *)
Theorem ssh_inspection_gated_by_probe {P : Platform} (w : World) :
  let anvil := probe_answer w ANVIL_LAN ANVIL_OLLAMA "/api/tags" in
  let log := fst (fleet_handler w []) in
  (In (ARun ssh_command) log ->
     ok anvil = true
     /\ exists before after,
          log = before ++ ARun ssh_command :: after
          /\ In (AProbe ANVIL_LAN ANVIL_OLLAMA "/api/tags") before)
  /\ (ok anvil = false -> ~ In (ARun ssh_command) log).
Proof.
  intros anvil log. subst log. rewrite fleet_handler_actions.
  unfold fleet_actions. fold anvil. change (anvilOllama w) with anvil.
  assert (Hother : forall l,
            In (ARun ssh_command)
               ([ARun "uptime"; ARun "df -h / | tail -1"]
                ++ (if ok (litellm w) then [AGetModels] else [])
                ++ l) ->
            In (ARun ssh_command) l).
  { intros l H. apply in_app_or in H as [H|H].
    - exfalso. simpl in H. destruct H as [H|[H|[]]]; vm_compute in H; discriminate.
    - apply in_app_or in H as [H|H]; [|exact H].
      exfalso. destruct (ok (litellm w)); simpl in H; intuition discriminate. }
  assert (Hlast : ~ In (ARun ssh_command)
                      [ARun "tailscale status --json 2>/dev/null";
                       ARun "/usr/sbin/lsof -ti:3000";
                       ARun "/usr/sbin/lsof -ti:3002";
                       ARun "/usr/sbin/lsof -ti:3003"]).
  { simpl. intros [H|[H|[H|[H|[]]]]]; vm_compute in H; discriminate. }
  assert (Hprobes : ~ In (ARun ssh_command) probes).
  { simpl. intuition discriminate. }
  split.
  - intros Hin. apply in_app_or in Hin as [Hin|Hin]; [contradiction|].
    destruct (models_of anvil anvil_model); [|contradiction].
    destruct (models_of (localOllama w) local_model); [|contradiction].
    destruct (ok anvil).
    + split; [reflexivity|]. exists probes. eexists.
      split; [reflexivity | simpl; auto].
    + exfalso. simpl app in Hin. apply Hother in Hin. contradiction.
  - intros Hdown Hin. rewrite Hdown in Hin.
    apply in_app_or in Hin as [Hin|Hin]; [contradiction|].
    destruct (models_of anvil anvil_model); [|contradiction].
    destruct (models_of (localOllama w) local_model); [|contradiction].
    simpl app in Hin. apply Hother in Hin. contradiction.
Qed.

(** With Anvil answering on the LAN the inspection runs, after the probes;
    with every probe timing out it does not. *)
Lemma ssh_inspection_examples :
  (ok (probe_answer world_anvil_up ANVIL_LAN ANVIL_OLLAMA "/api/tags") = true
   /\ In (ARun ssh_command) (fst (fleet_handler world_anvil_up [])))
  /\ ~ In (ARun ssh_command) (fst (fleet_handler world_all_down [])).
Proof.
  split.
  - assert (Hin : In (ARun ssh_command) (fst (fleet_handler world_anvil_up []))).
    { vm_compute. tauto. }
    split; [|exact Hin].
    exact (proj1 (proj1 (ssh_inspection_gated_by_probe world_anvil_up) Hin)).
  - exact (proj2 (ssh_inspection_gated_by_probe world_all_down) eq_refl).
Defined.

(** C5, at the input on which the code departs from it: the LAN probe of
    Anvil is answered 200 with the JSON text [{"models": true}].  The
    handler raises [TypeError] from [anvilOllama.data.models.map] after the
    four probes, and no response object is built. *)
Theorem fleet_handler_raises_on_models_not_array :
  fleet_handler world_models_true []
  = ([AProbe ANVIL_LAN ANVIL_OLLAMA "/api/tags";
      AProbe ANVIL_TS ANVIL_OLLAMA "/api/tags";
      AProbe "127.0.0.1" LITELLM_PORT "/health/readiness";
      AProbe "127.0.0.1" ANVIL_OLLAMA "/api/tags"],
     Throw TypeError).
Proof. reflexivity. Qed.

(** With every source down the handler still answers 200, and the body
    carries the markers of each failure. *)
Lemma fleet_handler_all_down :
  exists body,
    snd (fleet_handler world_all_down []) = Ok (mkFleetResponse 200 body)
    /\ anvil_system body = None
    /\ anvil_lan body = mkLink false 3000
    /\ anvil_tailscale body = mkLink false 3000
    /\ anvil_ollama_status body = "down"
    /\ anvil_ollama_models body = []
    /\ hearth_models body = []
    /\ routing_litellm_status body = "down"
    /\ routing_litellm_models body = []
    /\ tailscale_device_list body = []
    /\ meshSize body = 0%nat.
Proof. eexists. split; [reflexivity|]. repeat split. Qed.

End FleetSpec.

(* ===================================================================== *)
(** * The router *)
(* ===================================================================== *)

Module RouterSpec.
Import Router.

(** A pattern part is a placeholder when it starts with a colon. *)
Definition placeholder (pat : string) : bool := JsString.startsWith ":" pat.

(** Every literal part of the pattern equals the path part at its index. *)
Definition literals_fit (parts : list (string * string)) : bool :=
  forallb (fun ps => placeholder (fst ps) || String.eqb (fst ps) (snd ps)) parts.

(** Same method, same number of parts, every literal part equal. *)
Definition fits {H : Type} (m path : string) (r : Route H) : bool :=
  String.eqb (method r) m
  && Nat.eqb (length (JsString.split "/" (pattern r)))
             (length (JsString.split "/" path))
  && literals_fit (combine (JsString.split "/" (pattern r))
                           (JsString.split "/" path)).

(** [decodeURIComponent] returns on every part of the path. *)
Definition decodable (path : string) : Prop :=
  Forall (fun seg => Uri.decodeURIComponent seg <> None) (JsString.split "/" path).


Lemma obj_get_update_same (k v : string) (o : jsobj) :
  obj_get k (obj_update k v o) = Some v.
Proof.
  induction o as [|[k' v'] o IH]; simpl.
  - now rewrite String.eqb_refl.
  - destruct (String.eqb k' k) eqn:E; simpl; rewrite E; [reflexivity | exact IH].
Qed.

Lemma obj_get_update_other (k k0 v : string) (o : jsobj) :
  k <> k0 -> obj_get k0 (obj_update k v o) = obj_get k0 o.
Proof.
  intros Hne. induction o as [|[k' v'] o IH]; simpl.
  - destruct (String.eqb_spec k k0); [contradiction | reflexivity].
  - destruct (String.eqb_spec k' k) as [->|Hk]; simpl.
    + destruct (String.eqb_spec k k0); [contradiction | reflexivity].
    + destruct (String.eqb k' k0); [reflexivity | exact IH].
Qed.


(** On decodable parts the loop of [matchPattern] does not raise; it
    returns an object exactly when the literals fit. *)
Lemma match_parts_decodable (parts : list (string * string)) (acc : jsobj) :
  Forall (fun ps => Uri.decodeURIComponent (snd ps) <> None) parts ->
  if literals_fit parts
  then exists params, match_parts parts acc = Ok (Some params)
  else match_parts parts acc = Ok None.
Proof.
  intros Hd. revert acc.
  induction Hd as [|[pat seg] parts Hseg Hd IH]; intros acc;
    cbn [match_parts literals_fit forallb fst snd].
  - eauto.
  - unfold placeholder. cbn [snd] in Hseg.
    destruct (JsString.startsWith ":" pat); cbn [orb andb].
    + destruct (Uri.decodeURIComponent seg) as [v|]; [|congruence]. apply IH.
    + destruct (String.eqb pat seg); cbn [negb andb]; [apply IH | reflexivity].
Qed.


Lemma combine_decodable (pats segs : list string) :
  Forall (fun seg => Uri.decodeURIComponent seg <> None) segs ->
  Forall (fun ps => Uri.decodeURIComponent (snd ps) <> None) (combine pats segs).
Proof.
  intros Hs. revert pats.
  induction Hs as [|seg segs Hseg Hs IH]; intros [|pat pats]; simpl;
    constructor; auto.
Qed.

(** On a decodable path, [match_routes] returns the handler of the first
    route that fits together with the object [matchPattern] builds for it,
    and [null] when no route fits. *)
Lemma match_routes_decodable {H : Type} (routes : list (Route H))
  (m path : string) :
  decodable path ->
  match find (fits m path) routes with
  | Some r =>
      exists params,
        match_routes routes m path = Ok (Some (handler r, params))
        /\ matchPattern (pattern r) path = Ok (Some params)
  | None => match_routes routes m path = Ok None
  end.
Proof.
  intros Hd. induction routes as [|r routes IH]; simpl.
  - reflexivity.
  - unfold fits at 1. destruct (String.eqb (method r) m); simpl; [|exact IH].
    unfold matchPattern.
    destruct (Nat.eqb (length (JsString.split "/" (pattern r)))
                      (length (JsString.split "/" path))) eqn:El;
      simpl; [|exact IH].
    pose proof (@match_parts_decodable
                  (combine (JsString.split "/" (pattern r))
                           (JsString.split "/" path)) []
                  (combine_decodable _ Hd)) as Hp.
    destruct (literals_fit _).
    + destruct Hp as [params Hp]. rewrite Hp. exists params.
      rewrite El. auto.
    + rewrite Hp. exact IH.
Qed.






End RouterSpec.

(* ===================================================================== *)
(** * The vault endpoints *)
(* ===================================================================== *)

Module VaultSpec.
Import Vault.

(** A file system without files, for the examples. *)
Definition empty_fs : FileSystem :=
  {| path_join := fun a b => (a ++ "/" ++ b)%string;
     existsSync := fun _ => false;
     readFileSync := fun _ => Throw ExecError;
     readdirSync := fun _ => Throw ExecError;
     mtime_iso := fun _ => Throw ExecError |}.

(** C6.  Whatever the request text, when the decoded value of its [dir]
    parameter contains [..] the handler of [/api/vault/notes] answers 400
    with an error body, and when the decoded value of its [path] parameter
    contains [..] so does the handler of [/api/vault/note]; neither reads
    the vault.  The test is made on the value [searchParams] gives, that
    is after the escapes of the request were decoded. *)
Theorem traversal_parameter_rejected {P : Platform} {F : FileSystem}
  (VAULT_PATH : string) (req : Request) (u : URL) (v : string) :
  URL_parse (url req) = Some u ->
  JsString.includes v ".." = true ->
  (searchParams_get "dir" (searchParams u) = Some v ->
     notes_handler VAULT_PATH req = Ok (mkResponse 400 (BError "Invalid directory")))
  /\ (searchParams_get "path" (searchParams u) = Some v ->
        note_handler VAULT_PATH req = Ok (mkResponse 400 (BError "Invalid path"))).
Proof.
  intros Hu Hv.
  assert (Hne : v <> EmptyString).
  { apply (includes_nonempty (sub := "..")); [discriminate | exact Hv]. }
  split; intros Hget.
  - unfold notes_handler. rewrite Hu, Hget, (or_default_nonempty _ Hne), Hv.
    reflexivity.
  - unfold note_handler. rewrite Hu, Hget, (or_default_nonempty _ Hne), Hv.
    reflexivity.
Qed.

(** The request of the smoke test for the notes endpoint. *)
Lemma traversal_parameter_rejected_example :
  notes_handler (P := Example.platform) (F := empty_fs) "/vault"
                (mkRequest "GET" "/api/vault/notes?dir=../private")
  = Ok (mkResponse 400 (BError "Invalid directory")).
Proof.
  exact (proj1 (@traversal_parameter_rejected Example.platform empty_fs "/vault"
                  (mkRequest "GET" "/api/vault/notes?dir=../private")
                  (mkURL "/api/vault/notes" [("dir", "../private")])
                  "../private" eq_refl eq_refl)
               eq_refl).
Defined.

End VaultSpec.

(* ===================================================================== *)
(** * The asset list *)
(* ===================================================================== *)

Module AtlasSpec.
Import Atlas.

Lemma limit_offset_length {A : Type} (l o : Z) (rows : list A) :
  (0 <= l)%Z -> (length (limit_offset l o rows) <= Z.to_nat l)%nat.
Proof.
  intros Hl. unfold limit_offset.
  destruct (Z.ltb_spec l 0); [lia|]. apply firstn_le_length.
Qed.

(** The page size handed to the query is never above 200, it is 50 when the
    request names no limit, and a page of a non-negative size holds at most
    that many rows. *)
Lemma page_size_capped {P : Platform} (db : Database) (req : Request)
  (resp : Response) :
  assets_handler (Some db) req = Ok resp ->
  exists rows total z offset u,
    URL_parse (url req) = Some u
    /\ body resp = BAssets rows total (Num z) offset
    /\ status resp = 200%Z
    /\ (z <= 200)%Z
    /\ (searchParams_get "limit" (searchParams u) = None -> z = 50%Z)
    /\ ((0 <= z)%Z -> (length rows <= 200)%nat).
Proof.
  unfold assets_handler.
  destruct (URL_parse (url req)) as [u|]; [|discriminate].
  set (lim := parseInt (or_default (searchParams_get "limit" (searchParams u)) "50")).
  unfold select_assets.
  destruct (Math_min_200 lim) as [z|neg|] eqn:Ez; cbn [rbind bind_int];
    [|discriminate|discriminate].
  match goal with
  | |- context [if ?c then Ok z else _] => destruct c
  end; cbn [rbind]; [|discriminate].
  destruct (bind_int _) as [o|]; cbn [rbind]; [|discriminate].
  intros H. injection H as <-. cbn [body status].
  assert (Hz : (z <= 200)%Z).
  { destruct lim as [n|[|]|]; cbn [Math_min_200] in Ez; try discriminate;
      injection Ez as <-; lia. }
  eexists _, _, z, _, u. repeat split; try reflexivity; try exact Hz.
  - intros Hnone. subst lim. rewrite Hnone in Ez. vm_compute in Ez. congruence.
  - intros Hpos.
    pose proof (@limit_offset_length Asset z o
                  (order_desc (where_type (searchParams_get "type" (searchParams u)) db))
                  Hpos).
    lia.
Qed.

(** A table of 201 voice memos. *)
Definition table_201 : Database :=
  repeat (mkAsset "a" "voice_memo" "2026-01-01T00:00:00Z") 201.

(** C10, at the input on which the code departs from it: [limit=-1] on a
    table of 201 rows.  [Math.min(-1, 200)] is [-1], [LIMIT -1] puts no
    bound on the rows, and the response carries all 201. *)
Theorem negative_limit_is_unbounded :
  exists resp,
    assets_handler (P := Example.platform) (Some table_201)
                   (mkRequest "GET" "/api/atlas/assets?limit=-1")
    = Ok resp
    /\ status resp = 200%Z
    /\ length (assets_of resp) = 201%nat
    /\ exists total offset,
         body resp = BAssets (assets_of resp) total (Num (-1)) offset.
Proof.
  eexists. split; [vm_compute; reflexivity|].
  repeat split. eexists _, _. reflexivity.
Qed.

End AtlasSpec.

(* ===================================================================== *)
(** * The router: splitting, registration, paths without escapes *)
(* ===================================================================== *)

Module RouterMore.
Import Router RouterSpec.

(** [parts.join(sep)] *)
Fixpoint join (sep : ascii) (parts : list string) : string :=
  match parts with
  | [] => EmptyString
  | [x] => x
  | x :: rest => x ++ String sep (join sep rest)
  end.

(** No part of the pattern is a placeholder. *)
Definition literal_pattern (pat : string) : Prop :=
  Forall (fun p => placeholder p = false) (JsString.split "/" pat).

Fixpoint percent_free (s : string) : bool :=
  match s with
  | EmptyString => true
  | String c s' => negb (Ascii.eqb c "%") && percent_free s'
  end.

Lemma append_assoc (a b c : string) :
  ((a ++ b) ++ c)%string = (a ++ (b ++ c))%string.
Proof. induction a as [|x a IH]; simpl; [reflexivity | now rewrite IH]. Qed.

Lemma append_empty_r (a : string) : (a ++ "")%string = a.
Proof. induction a as [|x a IH]; simpl; [reflexivity | now rewrite IH]. Qed.

Lemma split_acc_nonempty (sep : ascii) (cur s : string) :
  JsString.split_acc sep cur s <> [].
Proof.
  revert cur. induction s as [|c s IH]; intros cur; simpl.
  - discriminate.
  - destruct (Ascii.eqb c sep); [discriminate | apply IH].
Qed.

Lemma join_split_acc (sep : ascii) (cur s : string) :
  join sep (JsString.split_acc sep cur s) = (cur ++ s)%string.
Proof.
  revert cur. induction s as [|c s IH]; intros cur; cbn [JsString.split_acc].
  - simpl. now rewrite append_empty_r.
  - destruct (Ascii.eqb_spec c sep) as [->|Hne].
    + specialize (IH EmptyString).
      destruct (JsString.split_acc sep EmptyString s) as [|y rest] eqn:E.
      * now apply split_acc_nonempty in E.
      * change (join sep (cur :: y :: rest))
          with (cur ++ String sep (join sep (y :: rest)))%string.
        rewrite IH. reflexivity.
    + rewrite IH, append_assoc. reflexivity.
Qed.

Lemma join_split (sep : ascii) (s : string) :
  join sep (JsString.split sep s) = s.
Proof. unfold JsString.split. now rewrite join_split_acc. Qed.

Lemma split_injective (sep : ascii) (s t : string) :
  JsString.split sep s = JsString.split sep t -> s = t.
Proof.
  intros H. rewrite <- (join_split sep s), <- (join_split sep t). now rewrite H.
Qed.

Lemma match_parts_literal (pats segs : list string) (acc : jsobj) :
  Forall (fun p => placeholder p = false) pats ->
  length pats = length segs ->
  (pats = segs -> match_parts (combine pats segs) acc = Ok (Some acc))
  /\ (pats <> segs -> match_parts (combine pats segs) acc = Ok None).
Proof.
  intros Hlit. revert segs.
  induction Hlit as [|p pats Hp Hlit IH]; intros [|seg segs] Hlen;
    try discriminate.
  - split; [reflexivity | congruence].
  - cbn [combine match_parts]. unfold placeholder in Hp. rewrite Hp.
    injection Hlen as Hlen. destruct (IH segs Hlen) as [IH1 IH2].
    destruct (String.eqb_spec p seg) as [->|Hne]; cbn [negb].
    + split.
      * intros E. injection E as E. now apply IH1.
      * intros E. apply IH2. congruence.
    + split; [congruence | reflexivity].
Qed.

Lemma match_routes_app {H : Type} (r1 r2 : list (Route H)) (m path : string) :
  match_routes (r1 ++ r2) m path
  = match match_routes r1 m path with
    | Ok None => match_routes r2 m path
    | other => other
    end.
Proof.
  induction r1 as [|r r1 IH]; simpl.
  - reflexivity.
  - destruct (String.eqb (method r) m); simpl; [|exact IH].
    destruct (matchPattern (pattern r) path) as [[params|]|e];
      [reflexivity | exact IH | reflexivity].
Qed.

Lemma decode_percent_free (s : string) :
  percent_free s = true -> Uri.decodeURIComponent s = Some s.
Proof.
  unfold Uri.decodeURIComponent. induction s as [|c s IH]; simpl.
  - reflexivity.
  - intros H. apply andb_true_iff in H as [Hc Hs].
    apply negb_true_iff in Hc. rewrite Hc, (IH Hs). reflexivity.
Qed.

Lemma percent_free_app (a b : string) :
  percent_free (a ++ b) = percent_free a && percent_free b.
Proof.
  induction a as [|c a IH]; simpl; [reflexivity|].
  rewrite IH. now rewrite andb_assoc.
Qed.

Lemma split_acc_percent_free (sep : ascii) (cur s : string) :
  percent_free cur = true -> percent_free s = true ->
  Forall (fun p => percent_free p = true) (JsString.split_acc sep cur s).
Proof.
  revert cur. induction s as [|c s IH]; intros cur Hcur Hs; simpl.
  - repeat constructor. exact Hcur.
  - simpl in Hs. apply andb_true_iff in Hs as [Hc Hs].
    destruct (Ascii.eqb c sep).
    + constructor; [exact Hcur | now apply IH].
    + apply IH; [|exact Hs]. rewrite percent_free_app, Hcur. simpl.
      now rewrite Hc.
Qed.

Lemma percent_free_decodable (path : string) :
  percent_free path = true -> decodable path.
Proof.
  intros H. unfold decodable.
  eapply Forall_impl; [|apply (split_acc_percent_free "/" EmptyString path eq_refl H)].
  intros seg Hseg. now rewrite (decode_percent_free _ Hseg).
Qed.

(** Every value [matchPattern] stores is the decoding of a path part. *)
Lemma match_parts_values (parts : list (string * string)) (acc params : jsobj)
  (name v : string) :
  match_parts parts acc = Ok (Some params) ->
  obj_get name params = Some v ->
  obj_get name acc = Some v
  \/ exists seg, In seg (map snd parts) /\ Uri.decodeURIComponent seg = Some v.
Proof.
  revert acc. induction parts as [|[pat seg] parts IH]; intros acc;
    cbn [match_parts map snd].
  - intros H Hv; injection H as <-. now left.
  - destruct (JsString.startsWith ":" pat).
    + destruct (Uri.decodeURIComponent seg) as [d|] eqn:Ed; [|discriminate].
      intros H Hv. destruct (IH _ H Hv) as [Hacc | [s [Hin Hs]]].
      * unfold obj_set in Hacc. revert Hacc.
        destruct (String.eqb (JsString.slice1 pat) "__proto__");
          intros Hacc; [now left|].
        destruct (String.eqb_spec (JsString.slice1 pat) name) as [E|Hne].
        -- rewrite E, obj_get_update_same in Hacc. injection Hacc as <-.
           right. exists seg. split; [now left | exact Ed].
        -- rewrite (obj_get_update_other _ _ Hne) in Hacc. now left.
      * right. exists s. split; [now right | exact Hs].
    + destruct (String.eqb pat seg); cbn [negb]; [|discriminate].
      intros H Hv. destruct (IH _ H Hv) as [Hacc | [s [Hin Hs]]].
      * now left.
      * right. exists s. split; [now right | exact Hs].
Qed.

Lemma in_combine_snd (pats segs : list string) (seg : string) :
  In seg (map snd (combine pats segs)) -> In seg segs.
Proof.
  revert segs. induction pats as [|p pats IH]; intros [|s segs]; simpl;
    try tauto.
  intros [H|H]; [now left | right; now apply IH].
Qed.

End RouterMore.

Module RouterExtra.
Import Router RouterSpec RouterMore.

(** A route table filled by calls of [get] and [post]. *)
Inductive registered {H : Type} : list (Route H) -> Prop :=
| registered_nil : registered []
| registered_get routes pat h :
    registered routes -> registered (get routes pat h)
| registered_post routes pat h :
    registered routes -> registered (post routes pat h).

(** X1.  A pattern without placeholder matches the path that is the pattern
    itself, character for character, with empty [params], and no other
    path: a trailing slash, a doubled slash or another letter case gives
    [null]. *)
Theorem literal_pattern_matches_only_itself (pat path : string) :
  literal_pattern pat ->
  matchPattern pat path = if String.eqb pat path then Ok (Some []) else Ok None.
Proof.
  intros Hlit. unfold matchPattern.
  destruct (Nat.eqb_spec (length (JsString.split "/" pat))
                         (length (JsString.split "/" path))) as [Hlen|Hlen];
    cbn [negb].
  - destruct (match_parts_literal (JsString.split "/" path) [] Hlit Hlen)
      as [Hsame Hdiff].
    destruct (String.eqb_spec pat path) as [->|Hne].
    + now apply Hsame.
    + apply Hdiff. intros E. apply Hne. now apply (split_injective "/").
  - destruct (String.eqb_spec pat path) as [->|Hne]; [contradiction | reflexivity].
Qed.

Lemma literal_pattern_example :
  matchPattern "/api/vault/stats" "/api/vault/stats" = Ok (Some [])
  /\ matchPattern "/api/vault/stats" "/api/vault/stats/" = Ok None
  /\ matchPattern "/api/vault/stats" "/api/vault/Stats" = Ok None.
Proof.
  assert (Hlit : literal_pattern "/api/vault/stats").
  { unfold literal_pattern. vm_compute. repeat constructor. }
  split; [|split].
  - exact (literal_pattern_matches_only_itself "/api/vault/stats" Hlit).
  - exact (literal_pattern_matches_only_itself "/api/vault/stats/" Hlit).
  - exact (literal_pattern_matches_only_itself "/api/vault/Stats" Hlit).
Defined.

(** X2.  Registering further routes leaves every answer of the table
    as it was, a match or an exception alike; the new routes are consulted
    only for a request the table answered with [null]. *)
Theorem registration_keeps_earlier_answers {P : Platform} {H : Type}
  (routes more : list (Route H)) (pat : string) (h : H) (m url : string) :
  match_ (routes ++ more) m url
  = match match_ routes m url with
    | Ok None => match_ more m url
    | other => other
    end
  /\ match_ (get routes pat h) m url
     = match match_ routes m url with
       | Ok None => match_ [mkRoute "GET" pat h] m url
       | other => other
       end
  /\ match_ (post routes pat h) m url
     = match match_ routes m url with
       | Ok None => match_ [mkRoute "POST" pat h] m url
       | other => other
       end.
Proof.
  unfold match_, get, post.
  destruct (URL_parse url) as [u|]; [|repeat split].
  rewrite !match_routes_app. repeat split.
Qed.

(** X3.  On a URL whose path holds no percent sign [match] returns, and
    every value of [params] is one of the parts of the path, as written. *)
Theorem match_on_escape_free_path {P : Platform} {H : Type}
  (routes : list (Route H)) (m url : string) (u : URL) :
  URL_parse url = Some u ->
  percent_free (pathname u) = true ->
  exists res,
    match_ routes m url = Ok res
    /\ forall h params name v,
         res = Some (h, params) ->
         obj_get name params = Some v ->
         In v (JsString.split "/" (pathname u)).
Proof.
  intros Hu Hfree. unfold match_. rewrite Hu.
  pose proof (percent_free_decodable _ Hfree) as Hd.
  pose proof (match_routes_decodable routes m Hd) as Hm.
  assert (Hsegs : Forall (fun p => percent_free p = true)
                         (JsString.split "/" (pathname u))).
  { apply (split_acc_percent_free "/" EmptyString (pathname u) eq_refl Hfree). }
  destruct (find (fits m (pathname u)) routes) as [r|].
  - destruct Hm as [params [Hm Hp]]. eexists. split; [exact Hm|].
    intros h params' name v E Hv. injection E as _ <-.
    unfold matchPattern in Hp.
    destruct (Nat.eqb _ _); simpl in Hp; [|discriminate].
    destruct (match_parts_values _ _ _ Hp Hv) as [Hacc | [seg [Hin Hseg]]].
    + discriminate.
    + apply in_combine_snd in Hin. rewrite Forall_forall in Hsegs.
      rewrite (decode_percent_free _ (Hsegs _ Hin)) in Hseg.
      injection Hseg as <-. exact Hin.
  - eexists. split; [exact Hm | discriminate].
Qed.

Lemma match_on_escape_free_path_example :
  exists res,
    match_ (P := Example.platform)
           (get [] "/api/atlas/search/:query" 7%nat)
           "GET" "/api/atlas/search/meeting"
    = Ok res.
Proof.
  destruct (@match_on_escape_free_path Example.platform nat
              (get [] "/api/atlas/search/:query" 7%nat)
              "GET" "/api/atlas/search/meeting"
              (mkURL "/api/atlas/search/meeting" []) eq_refl eq_refl)
    as [res [Hres _]].
  exists res. exact Hres.
Defined.

Lemma registered_methods {H : Type} (routes : list (Route H)) :
  registered routes ->
  Forall (fun r => method r = "GET" \/ method r = "POST") routes.
Proof.
  induction 1 as [|routes pat h _ IH|routes pat h _ IH].
  - constructor.
  - unfold get. apply Forall_app. split; [exact IH|].
    constructor; [now left | constructor].
  - unfold post. apply Forall_app. split; [exact IH|].
    constructor; [now right | constructor].
Qed.

Lemma match_routes_other_method {H : Type} (routes : list (Route H))
  (m path : string) :
  Forall (fun r => method r <> m) routes -> match_routes routes m path = Ok None.
Proof.
  induction 1 as [|r routes Hr _ IH]; simpl.
  - reflexivity.
  - destruct (String.eqb_spec (method r) m); [contradiction | exact IH].
Qed.

(** X4.  A table filled through [get] and [post] answers [null] to every
    other method, compared as written ([get] is not [GET]), whatever the
    path is: no part of it is decoded. *)
Theorem unregistered_method_is_null {P : Platform} {H : Type}
  (routes : list (Route H)) (m url : string) (u : URL) :
  registered routes ->
  URL_parse url = Some u ->
  m <> "GET" -> m <> "POST" ->
  match_ routes m url = Ok None.
Proof.
  intros Hreg Hu Hget Hpost. unfold match_. rewrite Hu.
  apply match_routes_other_method.
  eapply Forall_impl; [|exact (registered_methods Hreg)].
  intros r [E|E]; rewrite E; congruence.
Qed.

Lemma unregistered_method_example :
  match_ (P := Example.platform)
         (post (get [] "/api/atlas/assets/:id" 1%nat) "/api/agents/park" 2%nat)
         "get" "/api/atlas/assets/%"
  = Ok None.
Proof.
  refine (@unregistered_method_is_null Example.platform nat _ "get"
            "/api/atlas/assets/%" (mkURL "/api/atlas/assets/%" []) _ eq_refl _ _).
  - apply registered_post, registered_get, registered_nil.
  - discriminate.
  - discriminate.
Defined.

End RouterExtra.

(* ===================================================================== *)
(** * The probe: settling once, gathering the body *)
(* ===================================================================== *)

Module ProbeExtra.
Import Fleet ProbeFacts.

Section WithPlatform.
Context {P : Platform}.

Lemma probe_settles (host path : string) (port : Z) (timeout_opt : option Z)
  (started : Z) (evs : list HttpEvent) :
  quiet false evs = false ->
  exists v, probe host port path timeout_opt started evs = Ok (Some v).
Proof.
  intros Hq. apply quiet_false_split in Hq as [pre [ev [post [-> [Hq Hev]]]]].
  destruct (probe_decided_by host path port timeout_opt started pre post ev Hq)
    as [st [Hs [Hstart [Hview [Hseen Hdec]]]]].
  set (t := match timeout_opt with Some t => t | None => 3000%Z end) in *.
  simpl in Hev. rewrite <- Hseen in Hev.
  destruct ev; simpl in Hev; try discriminate.
  - unfold seen in Hev. destruct (response st) as [code|] eqn:R; [|discriminate].
    destruct (on_event_returns t st (End_ now)) as [st1 E].
    assert (Hsome : exists v, settled st1 = Some v).
    { simpl in E. rewrite R in E. unfold on_end, JSON_parse_r in E.
      destruct (JSON_parse (Utf16.to_text (body st))); simpl in E; injection E as <-;
        rewrite resolve_pending by exact Hs; eauto. }
    destruct Hsome as [v Hv]. exists v. eapply Hdec; eassumption.
  - eexists. eapply Hdec; [reflexivity|]. now apply resolve_pending.
  - eexists. eapply Hdec; [reflexivity|]. now apply resolve_pending.
Qed.

End WithPlatform.

(** X5.  Once the promise of a probe is resolved, no later event changes
    its value: the error a destroyed request emits after its timeout, or a
    response that ends late, is ignored. *)
Theorem probe_first_settlement_stays {P : Platform}
  (host : string) (port : Z) (path : string) (timeout_opt : option Z)
  (started : Z) (evs more : list HttpEvent) (v : ProbeResult) :
  probe host port path timeout_opt started evs = Ok (Some v) ->
  probe host port path timeout_opt started (evs ++ more) = Ok (Some v).
Proof.
  unfold probe. set (t := match timeout_opt with Some t => t | None => 3000%Z end).
  rewrite run_events_app.
  destruct (run_events t _ evs) as [st|e]; simpl; [|discriminate].
  intros H. injection H as Hs.
  destruct (run_events_returns t more st) as [st' Hmore]. rewrite Hmore. simpl.
  f_equal. eapply run_events_keeps_settled; eassumption.
Qed.

Lemma probe_first_settlement_example :
  probe (P := Example.platform) "100.116.17.120" 11434 "/api/tags" None 0
        ([Timeout] ++ [Error 3001; Response 200; Data "null"; End_ 3500])
  = Ok (Some (mkProbeResult false 3000 None None (Some true))).
Proof.
  exact (@probe_first_settlement_stays Example.platform
           "100.116.17.120" 11434 "/api/tags" None 0
           [Timeout] [Error 3001; Response 200; Data "null"; End_ 3500]
           _ eq_refl).
Defined.

(** X6.  The promise of a probe is pending exactly as long as no response
    has ended and neither an error nor a timeout was delivered: [data]
    events and the response callback alone never resolve it, and an [end]
    settles it only after the response callback ran. *)
Theorem probe_pending_until_settled {P : Platform}
  (host : string) (port : Z) (path : string) (timeout_opt : option Z)
  (started : Z) (evs : list HttpEvent) :
  probe host port path timeout_opt started evs = Ok None
  <-> quiet false evs = true.
Proof.
  split.
  - intros H. destruct (quiet false evs) eqn:Hq; [reflexivity|].
    destruct (probe_settles host path port timeout_opt started evs Hq) as [v Hv].
    congruence.
  - intros Hq. unfold probe.
    set (t := match timeout_opt with Some t => t | None => 3000%Z end).
    destruct (@run_events_quiet P t evs
                (mkProbeState started None [] None false) eq_refl Hq)
      as [st [Hrun [Hs _]]].
    rewrite Hrun. simpl. now rewrite Hs.
Qed.

(** X7.  When the response ends before anything else settles the promise,
    the text [data] is read from is the chunks received since the response
    callback, each decoded by itself and appended in the order of delivery,
    which is not in general the decoding of the joined bytes.  [data] is
    the JSON value parsed from that text, or else its first 500 code units;
    what is delivered after the end changes nothing. *)
Theorem probe_data_is_joined_chunks {P : Platform}
  (host : string) (port : Z) (path : string) (timeout_opt : option Z)
  (started code now : Z) (chunks : list Buffer) (post : list HttpEvent) :
  let text := concat (map Buffer_toString chunks) in
  probe host port path timeout_opt started
        ((Response code :: map Data chunks) ++ End_ now :: post)
  = Ok (Some (mkProbeResult true (now - started) (Some code)
                (match JSON_parse (Utf16.to_text text) with
                 | Some d => Some d
                 | None => Some (JStr (Utf16.to_text (firstn 500 text)))
                 end) None)).
Proof.
  intros text.
  assert (Hq : quiet false (Response code :: map Data chunks) = true).
  { simpl. rewrite <- (app_nil_r (map Data chunks)). now rewrite quiet_chunks. }
  destruct (probe_decided_by host path port timeout_opt started
              (Response code :: map Data chunks) post (End_ now) Hq)
    as [st [Hs [Hstart [Hview [Hseen Hdec]]]]].
  cbn [received_from] in Hview. rewrite received_chunks in Hview.
  simpl in Hview. fold text in Hview. unfold view in Hview.
  destruct (response st) as [c|] eqn:R; [|discriminate].
  injection Hview as -> Hbody.
  destruct (JSON_parse (Utf16.to_text text)) as [d|] eqn:Hparse.
  - eapply Hdec.
    + simpl. rewrite R. unfold on_end, JSON_parse_r. rewrite Hbody, Hparse.
      simpl. reflexivity.
    + rewrite Hstart. now apply resolve_pending.
  - eapply Hdec.
    + simpl. rewrite R. unfold on_end, JSON_parse_r. rewrite Hbody, Hparse.
      simpl. reflexivity.
    + rewrite Hstart. now apply resolve_pending.
Qed.

End ProbeExtra.

(* ===================================================================== *)
(** * routes/agent-lifecycle.js: the protocol table and the active list *)
(* ===================================================================== *)

Module AgentsMore.
Import Agents AgentsFacts.

(** [x => Boolean(x)] on a string *)
Definition nonempty (s : string) : bool := negb (String.eqb s "").

Section WithPlatform.
Context {P : Platform}.

(** [row.split('|').map(c => c.trim()).filter(Boolean)] *)
Definition cells_of (row : string) : list string :=
  filter nonempty (map trim (JsString.split "|" row)).

(** The callback of [rows.map] in [getActiveAgents]; [None] is [null]. *)
Definition parse_row (row : string) : option ProtocolAgent :=
  match cells_of row with
  | c0 :: c1 :: c2 :: c3 :: c4 :: c5 :: _ =>
      Some (mkProtocolAgent c0 c1 c2 c3 c4 c5)
  | _ => None
  end.

Fixpoint filter_some {A : Type} (l : list (option A)) : list A :=
  match l with
  | [] => []
  | Some a :: l' => a :: filter_some l'
  | None :: l' => filter_some l'
  end.

(** [getActiveAgents()], given the text of the protocol file ([None] when
    the file does not exist) and the first capture of the regular
    expression that finds the rows of the Active Agents table. *)
Definition getActiveAgents (content : option string)
  (active_rows : string -> option string) : list ProtocolAgent :=
  match content with
  | None => []
  | Some text =>
      match active_rows text with
      | None => []
      | Some section =>
          filter_some (map parse_row (JsString.split (ascii_of_nat 10) (trim section)))
      end
  end.

End WithPlatform.

(** The test of the filter in [GET /api/agents/active]. *)
Definition listed_active (a : AgentRecord) : bool :=
  String.eqb (status a) "Active" || is_recent a.

Record ActiveBody : Type := mkActiveBody {
  active_agents : list AgentRecord;
  count : nat;
  active_timestamp : string
}.

(** Handler of [GET /api/agents/active]: the status and the body. *)
Definition active_handler (protocolAgents : list ProtocolAgent)
  (processAgents : list ProcessAgent) (sessionAgents : list SessionAgent)
  (now : string) : Z * ActiveBody :=
  let health := getAgentHealth protocolAgents processAgents sessionAgents now in
  let active := filter listed_active (agents health) in
  (200%Z, mkActiveBody active (length active) (timestamp health)).

(** What never changes in an entry once it is in the mapping. *)
Definition fixed_part (a : AgentRecord)
  : string * option string * string * string * string * Source * option string :=
  (name a, id a, model a, status a, focus a, source a, protocolStatus a).

Definition keyed_fixed (m : HealthMap) :=
  map (fun e => (fst e, fixed_part (snd e))) m.

(** [ageMs] is set and not zero. *)
Definition aged (a : AgentRecord) : bool :=
  match ageMs a with
  | Some z => negb (z =? 0)%Z
  | None => false
  end.

(** An [ageMs] that is set is below the threshold, and an entry without
    one came from the protocol table. *)
Definition age_in_range (a : AgentRecord) : Prop :=
  match ageMs a with
  | Some z => (z < RECENCY_THRESHOLD)%Z
  | None => source a = Protocol
  end.

Lemma update_first_forall (p : AgentRecord -> bool)
  (f : AgentRecord -> AgentRecord) (Q : AgentRecord -> Prop)
  (m m' : HealthMap) :
  (forall a, Q (f a)) ->
  Forall (fun e => Q (snd e)) m ->
  update_first p f m = Some m' ->
  Forall (fun e => Q (snd e)) m'.
Proof.
  intros Hf Hm. revert m'.
  induction Hm as [|[k v] m Hv Hm IH]; simpl; intros m' H.
  - discriminate.
  - destruct (p v).
    + injection H as <-. constructor; [apply Hf | exact Hm].
    + destruct (update_first p f m) as [m1|]; [|discriminate].
      injection H as <-. constructor; [exact Hv | now apply IH].
Qed.

Lemma fuse_session_age (m : HealthMap) (s : SessionAgent) :
  isRecentlyActive s = recent (sa_ageMs s) ->
  isRecentlyActive s = true ->
  Forall (fun e => age_in_range (snd e)) m ->
  Forall (fun e => age_in_range (snd e)) (fuse_session m s).
Proof.
  intros Hbuilt Hrecent Hm.
  assert (Hlt : (sa_ageMs s < RECENCY_THRESHOLD)%Z).
  { rewrite Hbuilt in Hrecent. unfold recent in Hrecent.
    now apply Z.ltb_lt in Hrecent. }
  unfold fuse_session.
  destruct (update_first (matches s) (enrich s) m) as [m'|] eqn:E.
  - eapply update_first_forall; [|exact Hm|exact E]. intros a. exact Hlt.
  - apply map_set_sourced; [exact Hlt | exact Hm].
Qed.

Lemma fuse_age_in_range (rows : list ProtocolAgent) (ss : list SessionAgent) :
  Forall (fun s => isRecentlyActive s = recent (sa_ageMs s)) ss ->
  Forall (fun e => age_in_range (snd e)) (fuse rows ss).
Proof.
  intros Hss. unfold fuse.
  assert (Hseed : Forall (fun e => age_in_range (snd e)) (seed rows)).
  { apply (@seed_from_sourced rows [] age_in_range); [|constructor].
    intros r _. reflexivity. }
  revert Hseed. generalize (seed rows) as m.
  induction Hss as [|s ss Hs Hss IH]; intros m Hm; simpl.
  - exact Hm.
  - destruct (isRecentlyActive s) eqn:Hr; simpl.
    + apply IH. apply fuse_session_age; [congruence | exact Hr | exact Hm].
    + now apply IH.
Qed.

Lemma update_first_keyed_fixed (s : SessionAgent) (m m' : HealthMap) :
  update_first (matches s) (enrich s) m = Some m' ->
  keyed_fixed m' = keyed_fixed m.
Proof.
  revert m'. induction m as [|[k v] m IH]; simpl; intros m' H.
  - discriminate.
  - destruct (matches s v).
    + injection H as <-. reflexivity.
    + destruct (update_first (matches s) (enrich s) m) as [m1|]; [|discriminate].
      injection H as <-. simpl. now rewrite (IH m1 eq_refl).
Qed.

Lemma fuse_session_keyed_fixed (m : HealthMap) (s : SessionAgent) :
  keys_named m ->
  keyed_fixed (fuse_session m s) = keyed_fixed m
  \/ keyed_fixed (fuse_session m s)
     = keyed_fixed m ++ [(agentName s, fixed_part (of_session s))].
Proof.
  intros Hk. unfold fuse_session.
  destruct (update_first (matches s) (enrich s) m) as [m'|] eqn:E.
  - left. exact (update_first_keyed_fixed s m E).
  - right.
    pose proof (@update_first_refuse s [] m eq_refl) as H. rewrite E in H.
    destruct H as [_ Hb].
    rewrite (map_set_new _ (no_match_no_key s Hk Hb)).
    unfold keyed_fixed. now rewrite map_app.
Qed.

Lemma fold_fuse_keyed_fixed (ss : list SessionAgent) (m : HealthMap) :
  keys_named m ->
  exists added,
    keyed_fixed (fold_left fuse_session ss m)
    = keyed_fixed m ++ map (fun s => (agentName s, fixed_part (of_session s))) added
    /\ incl added ss
    /\ (length added <= length ss)%nat.
Proof.
  revert m. induction ss as [|s ss IH]; intros m Hk; simpl.
  - exists []. simpl. rewrite app_nil_r.
    split; [reflexivity | split; [apply incl_refl | lia]].
  - destruct (IH _ (fuse_session_keys_named s Hk)) as [added [Hmap [Hin Hlen]]].
    destruct (fuse_session_keyed_fixed s Hk) as [E|E]; rewrite E in Hmap.
    + exists added.
      split; [exact Hmap | split; [now apply incl_tl | lia]].
    + exists (s :: added). rewrite Hmap, <- app_assoc. simpl.
      split; [reflexivity | split; [|lia]].
      intros x [<-|Hx]; [now left | right; now apply Hin].
Qed.

Lemma filter_or_length {A : Type} (p q : A -> bool) (l : list A) :
  (length (filter p l) <= length (filter (fun a => p a || q a) l)
   /\ length (filter q l) <= length (filter (fun a => p a || q a) l)
   /\ length (filter (fun a => p a || q a) l)
      <= length (filter p l) + length (filter q l)
   /\ length (filter (fun a => p a || q a) l) <= length l)%nat.
Proof.
  induction l as [|a l IH]; simpl; [lia|].
  destruct (p a), (q a); simpl; lia.
Qed.

End AgentsMore.

Module AgentsExtra.
Import Agents AgentsFacts AgentsMore.

(** X8.  [GET /api/agents/active] answers 200 with the entries of the
    health mapping that are Active or recently active, in mapping order,
    and [count] is their number: at least each of [summary.active] and
    [summary.recentlyActive], at most their sum and at most
    [summary.total]. *)
Theorem active_list_bounds (rows : list ProtocolAgent)
  (procs : list ProcessAgent) (sessions : list SessionAgent) (now : string) :
  let health := getAgentHealth rows procs sessions now in
  let response := active_handler rows procs sessions now in
  let body := snd response in
  fst response = 200%Z
  /\ active_agents body = filter listed_active (agents health)
  /\ count body = length (active_agents body)
  /\ active_timestamp body = timestamp health
  /\ (active (summary health) <= count body)%nat
  /\ (recentlyActive (summary health) <= count body)%nat
  /\ (count body <= active (summary health) + recentlyActive (summary health))%nat
  /\ (count body <= total (summary health))%nat.
Proof.
  intros health response body.
  pose proof (filter_or_length (fun a => String.eqb (status a) "Active") is_recent
                (map snd (fuse rows sessions))) as [H1 [H2 [H3 H4]]].
  rewrite length_map in H4.
  repeat (split; [reflexivity|]).
  split; [exact H1 | split; [exact H2 | split; [exact H3 | exact H4]]].
Qed.

(** X9.  When every session record carries [isRecentlyActive] as
    [getActiveAgentSessions] computes it ([ageMs < 3600000]), every
    [ageMs] in the health mapping is below that threshold, an entry
    without [ageMs] is a protocol entry, and [summary.recentlyActive]
    counts the entries whose [ageMs] is set and not zero: a log written in
    the very millisecond of the request is fused but not counted. *)
Theorem recency_count_is_enriched_entries (rows : list ProtocolAgent)
  (procs : list ProcessAgent) (sessions : list SessionAgent) (now : string) :
  Forall (fun s => isRecentlyActive s = recent (sa_ageMs s)) sessions ->
  let health := getAgentHealth rows procs sessions now in
  Forall age_in_range (agents health)
  /\ recentlyActive (summary health) = length (filter aged (agents health)).
Proof.
  intros Hbuilt health.
  pose proof (fuse_age_in_range rows Hbuilt) as Hage.
  assert (Hvals : Forall age_in_range (map snd (fuse rows sessions))).
  { apply Forall_map. exact Hage. }
  split; [exact Hvals|].
  simpl. f_equal. apply filter_ext_in.
  intros a Ha. rewrite Forall_forall in Hvals. specialize (Hvals a Ha).
  unfold is_recent, aged, age_in_range, RECENCY_THRESHOLD in *.
  destruct (ageMs a) as [z|]; [|reflexivity].
  apply Z.ltb_lt in Hvals. now rewrite Hvals, andb_true_r.
Qed.

Lemma recency_count_example :
  let fresh := mkSessionAgent "now.md" "Scribe" "Active" "" "" "2026-01-01T10:00:00.000Z"
                              0 (recent 0) in
  let older := mkSessionAgent "old.md" "Clerk" "Active" "" "" "2026-01-01T09:59:00.000Z"
                              60000 (recent 60000) in
  let health := getAgentHealth [] [] [fresh; older] "2026-01-01T10:00:00.000Z" in
  total (summary health) = 2%nat
  /\ recentlyActive (summary health) = length (filter aged (agents health))
  /\ recentlyActive (summary health) = 1%nat.
Proof.
  intros fresh older health.
  split; [reflexivity | split; [|reflexivity]].
  refine (proj2 (@recency_count_is_enriched_entries [] [] [fresh; older]
                   "2026-01-01T10:00:00.000Z" _)).
  repeat constructor.
Defined.

(** X10.  Fusion never removes, reorders or renames an entry: the keys,
    names, ids, models, statuses, focuses, sources and protocol statuses
    of the seeded entries stay as seeded, in place, whatever the session
    logs say (a protocol agent that is Parked stays Parked), and the
    fusion adds at the end at most one entry per recently active session
    record. *)
Theorem fusion_keeps_protocol_entries (rows : list ProtocolAgent)
  (sessions : list SessionAgent) :
  exists added,
    keyed_fixed (fuse rows sessions)
    = keyed_fixed (seed rows)
      ++ map (fun s => (agentName s, fixed_part (of_session s))) added
    /\ incl added (filter isRecentlyActive sessions)
    /\ (length (seed rows) <= length (fuse rows sessions))%nat
    /\ (length (fuse rows sessions)
        <= length (seed rows) + length (filter isRecentlyActive sessions))%nat.
Proof.
  unfold fuse.
  destruct (fold_fuse_keyed_fixed (filter isRecentlyActive sessions)
              (seed_keys_named rows)) as [added [Hmap [Hin Hlen]]].
  exists added. split; [exact Hmap | split; [exact Hin|]].
  assert (Hl : length (fold_left fuse_session (filter isRecentlyActive sessions)
                                 (seed rows))
               = (length (seed rows) + length added)%nat).
  { apply (f_equal (@length _)) in Hmap. unfold keyed_fixed in Hmap.
    rewrite length_app, !length_map in Hmap. exact Hmap. }
  rewrite Hl. lia.
Qed.

Section WithPlatform.
Context {P : Platform}.

Lemma parse_row_cells (row : string) (a : ProtocolAgent) :
  parse_row row = Some a ->
  pa_id a <> "" /\ pa_name a <> "" /\ pa_model a <> ""
  /\ pa_interface a <> "" /\ pa_status a <> "" /\ pa_focus a <> "".
Proof.
  unfold parse_row.
  assert (Hne : Forall (fun c => c <> "") (cells_of row)).
  { apply Forall_forall. intros c Hc. unfold cells_of in Hc.
    apply filter_In in Hc as [_ Hc]. unfold nonempty in Hc.
    apply negb_true_iff in Hc. now apply String.eqb_neq in Hc. }
  destruct (cells_of row) as [|c0 [|c1 [|c2 [|c3 [|c4 [|c5 rest]]]]]];
    try discriminate.
  intros H. injection H as <-. simpl.
  repeat match goal with
         | H : Forall _ (_ :: _) |- _ => inversion H; clear H; subst
         end.
  repeat split; assumption.
Qed.

Lemma filter_some_in {A : Type} (l : list (option A)) (a : A) :
  In a (filter_some l) -> In (Some a) l.
Proof.
  induction l as [|[x|] l IH]; simpl; [tauto| |]; intros H.
  - destruct H as [<-|H]; [now left | right; now apply IH].
  - right. now apply IH.
Qed.

Lemma filter_some_length {A : Type} (l : list (option A)) :
  (length (filter_some l) <= length l)%nat.
Proof. induction l as [|[x|] l IH]; simpl; lia. Qed.

Lemma seed_keys_are_row_names (rows : list ProtocolAgent) (k : string) :
  In k (map fst (seed rows)) -> In k (map pa_name rows).
Proof.
  intros Hk.
  pose proof (@seed_from_sourced rows []
                (fun a => In (name a) (map pa_name rows))) as Hs.
  assert (Hq : Forall (fun e => In (name (snd e)) (map pa_name rows)) (seed rows)).
  { apply Hs; [|constructor]. intros r Hr. simpl. now apply in_map. }
  pose proof (seed_keys_named rows) as Hn. unfold keys_named in Hn.
  apply in_map_iff in Hk as [e [<- He]].
  rewrite Forall_forall in Hq, Hn. rewrite (Hn e He). now apply Hq.
Qed.

End WithPlatform.

(** X11.  Every agent [getActiveAgents] returns was read from a table row
    with at least six non-empty cells, and its six fields are non-empty;
    rows with fewer such cells are left out, and a missing protocol file
    or table gives no agent.  Hence no key of the seeded health mapping is
    the empty string, the one key that every session name would contain. *)
Theorem protocol_agents_have_nonempty_fields {P : Platform}
  (content : option string) (active_rows : string -> option string) :
  let found := getActiveAgents content active_rows in
  Forall (fun a => pa_id a <> "" /\ pa_name a <> "" /\ pa_model a <> ""
                   /\ pa_interface a <> "" /\ pa_status a <> ""
                   /\ pa_focus a <> "") found
  /\ Forall (fun e => fst e <> "") (seed found)
  /\ (content = None -> found = [])
  /\ (forall text, content = Some text -> active_rows text = None -> found = [])
  /\ (forall text section,
        content = Some text -> active_rows text = Some section ->
        (length found
         <= length (JsString.split (ascii_of_nat 10) (trim section)))%nat).
Proof.
  intros found.
  assert (Hfields : Forall (fun a => pa_id a <> "" /\ pa_name a <> ""
                      /\ pa_model a <> "" /\ pa_interface a <> ""
                      /\ pa_status a <> "" /\ pa_focus a <> "") found).
  { subst found. unfold getActiveAgents.
    destruct content as [text|]; [|constructor].
    destruct (active_rows text) as [section|]; [|constructor].
    apply Forall_forall. intros a Ha. apply filter_some_in in Ha.
    apply in_map_iff in Ha as [row [Hrow _]]. exact (parse_row_cells row Hrow). }
  split; [exact Hfields|]. split.
  - apply Forall_forall. intros e He Hempty.
    assert (Hk : In (fst e) (map fst (seed found))) by now apply in_map.
    apply seed_keys_are_row_names in Hk. apply in_map_iff in Hk as [a [Ha Hin]].
    rewrite Forall_forall in Hfields. destruct (Hfields a Hin) as [_ [Hn _]].
    congruence.
  - subst found. unfold getActiveAgents. split; [intros ->; reflexivity|]. split.
    + intros text -> ->. reflexivity.
    + intros text section -> ->.
      rewrite <- (length_map parse_row). apply filter_some_length.
Qed.

End AgentsExtra.

(* ===================================================================== *)
(** * routes/fleet.js: the quick Anvil check and the routing table *)
(* ===================================================================== *)

Module FleetMore.
Import Fleet.

Section WithPlatform.
Context {P : Platform}.
Variable w : World.

Notation "x <- c ;; k" := (bind c (fun x => k))
  (at level 61, c at next level, right associativity).
Notation "c ;;; k" := (bind c (fun _ => k))
  (at level 61, right associativity).

Record QuickModel : Type := mkQuickModel {
  qm_name : Js.value;
  qm_size : string
}.

Definition quick_model (m : json num) : result QuickModel :=
  rbind (Js.get (Some m) "name") (fun name =>
  rbind (Js.get (Some m) "size") (fun size =>
  Ok (mkQuickModel name (size_text size)))).

(** [result.data?.models?.map(f) || []]: [[]] when [models] is [null] or
    missing, [TypeError] when it is anything else that is not an array. *)
Definition quick_models (p : ProbeResult) : result (list QuickModel) :=
  match Js.opt_get (data p) "models" with
  | None => Ok []
  | Some JNull => Ok []
  | Some v => Js.array_map (Some v) quick_model
  end.

Inductive AnvilBody : Type :=
| Unreachable (latencyMs : Z)
| Online (latencyMs : Z) (models : list QuickModel) (totalModels : nat)
         (timestamp : string).

(** The handler registered for [/api/fleet/anvil]: status and body. *)
Definition anvil_handler : M (Z * AnvilBody) :=
  result <- await_probe w ANVIL_LAN ANVIL_OLLAMA "/api/tags" ;;
  if negb (ok result) then ret (200%Z, Unreachable (latencyMs result))
  else
    models <- lift (quick_models result) ;;
    ret (200%Z, Online (latencyMs result) models (length models) (now_iso w)).







End WithPlatform.





End FleetMore.

Module FleetExtra.
Import Fleet FleetSpec FleetMore.

Section WithPlatform.
Context {P : Platform}.





Lemma starts_two (p q s : string) :
  JsString.startsWith p s = true -> JsString.startsWith q s = true ->
  exists t, JsString.startsWith q (p ++ t) = true.
Proof.
  intros Hp Hq. apply startsWith_prefix in Hp as [t ->]. now exists t.
Qed.






End WithPlatform.



(** X13.  One run of the handler of [GET /api/fleet] begins with the four
    probes, in a fixed order, and probes nothing else.  The model list of
    LiteLLM is requested only if its readiness probe resolved with
    [ok: true].  Every command run is one of seven fixed texts, none built
    from what a probe returned.  When a model list cannot be built the
    handler stops after the probes: it runs no command at all. *)
Theorem fleet_calls_are_fixed_and_gated {P : Platform} (w : World) :
  let log := fst (fleet_handler w []) in
  (exists rest, log = probes ++ rest
                /\ forall host port path, ~ In (AProbe host port path) rest)
  /\ (In AGetModels log -> ok (litellm w) = true)
  /\ (forall cmd, In (ARun cmd) log ->
        In cmd [ssh_command; "uptime"; "df -h / | tail -1";
                "tailscale status --json 2>/dev/null";
                "/usr/sbin/lsof -ti:3000"; "/usr/sbin/lsof -ti:3002";
                "/usr/sbin/lsof -ti:3003"])
  /\ ((forall l, models_of (anvilOllama w) anvil_model <> Ok l)
      \/ (forall l, models_of (localOllama w) local_model <> Ok l) ->
      log = probes).
Proof.
  intros log. subst log. rewrite fleet_handler_actions. unfold fleet_actions.
  destruct (models_of (anvilOllama w) anvil_model) as [am|e].
  - destruct (models_of (localOllama w) local_model) as [lm|e].
    + split; [|split; [|split]].
      * eexists. split; [reflexivity|].
        intros host port path Hin.
        destruct (ok (anvilOllama w)), (ok (litellm w)); simpl in Hin;
          intuition discriminate.
      * intros Hin. destruct (ok (litellm w)); [reflexivity|].
        exfalso. destruct (ok (anvilOllama w)); simpl in Hin;
          intuition discriminate.
      * intros cmd Hin.
        destruct (ok (anvilOllama w)), (ok (litellm w)); simpl in Hin;
          repeat (destruct Hin as [Hin|Hin];
                  [try discriminate; injection Hin as <-; simpl; tauto|]);
          contradiction.
      * intros [Hno|Hno]; [exfalso; now apply (Hno am) | exfalso; now apply (Hno lm)].
    + split; [|split; [|split]].
      * exists []. split; [reflexivity | intros ? ? ? []].
      * rewrite app_nil_r. simpl. intuition discriminate.
      * rewrite app_nil_r. simpl. intros cmd Hin. intuition discriminate.
      * intros _. now rewrite app_nil_r.
  - split; [|split; [|split]].
    + exists []. split; [reflexivity | intros ? ? ? []].
    + rewrite app_nil_r. simpl. intuition discriminate.
    + rewrite app_nil_r. simpl. intros cmd Hin. intuition discriminate.
    + intros _. now rewrite app_nil_r.
Qed.



Section QuickCheck.
Context {P : Platform}.
Variable w : World.

Lemma fleet_handler_built :
  forall resp, snd (fleet_handler w []) = Ok resp ->
  exists am lm,
    models_of (anvilOllama w) anvil_model = Ok am
    /\ models_of (localOllama w) local_model = Ok lm.
Proof.
  intros resp.
  unfold fleet_handler, await_probe.
  unfold bind at 1 2 3 4 5 6 7 8. cbn [emit ret app fst snd].
  fold (anvilOllama w) (litellm w) (localOllama w).
  unfold bind at 1. unfold lift at 1.
  destruct (models_of (anvilOllama w) anvil_model) as [am|e];
    [|intros H; simpl in H; discriminate].
  unfold bind at 1. unfold lift at 1.
  destruct (models_of (localOllama w) local_model) as [lm|e];
    [|intros H; simpl in H; discriminate].
  intros _. now exists am, lm.
Qed.

Lemma map_models_agree (items : list (json num)) (qs : list QuickModel)
  (am : list AnvilModel) :
  map_result quick_model items = Ok qs ->
  map_result anvil_model items = Ok am ->
  map qm_name qs = map am_name am /\ map qm_size qs = map am_size am.
Proof.
  revert qs am. induction items as [|m items IH]; intros qs am;
    cbn [map_result].
  - intros Hq Ha. injection Hq as <-. injection Ha as <-. now split.
  - unfold quick_model at 1, anvil_model at 1.
    destruct m; cbn [Js.get rbind]; try discriminate;
      (destruct (map_result quick_model items) as [qs'|]; cbn [rbind];
       [|discriminate];
       destruct (map_result anvil_model items) as [am'|]; cbn [rbind];
       [|intros _; discriminate];
       intros Hq Ha; injection Hq as <-; injection Ha as <-;
       destruct (IH qs' am' eq_refl eq_refl) as [H1 H2]; simpl;
       now rewrite H1, H2).
Qed.

Lemma quick_models_agree (p : ProbeResult) (qs : list QuickModel)
  (am : list AnvilModel) :
  ok p = true ->
  quick_models p = Ok qs ->
  models_of p anvil_model = Ok am ->
  map qm_name qs = map am_name am /\ map qm_size qs = map am_size am.
Proof.
  intros Hok. unfold quick_models, models_of. rewrite Hok. cbn [andb].
  destruct (Js.opt_get (data p) "models") as [v|].
  - destruct v as [|b|n|s|items|fields]; cbn [Js.truthy Js.array_map];
      try discriminate.
    + intros Hq Ha. injection Hq as <-. injection Ha as <-. now split.
    + apply map_models_agree.
  - cbn [Js.truthy]. intros Hq Ha. injection Hq as <-. injection Ha as <-.
    now split.
Qed.

End QuickCheck.

(** X15.  For one and the same answers of the outside, when the quick
    check [GET /api/fleet/anvil] and the snapshot [GET /api/fleet] both
    return, they agree on Anvil: the quick check says [unreachable] exactly
    when the snapshot says its LAN link is not reachable, with the same
    latency, and otherwise lists the models of the snapshot, name for name
    and size for size, with [totalModels] their number. *)
Theorem quick_check_agrees_with_snapshot {P : Platform} (w : World)
  (status : Z) (quick : AnvilBody) (body : FleetBody) :
  snd (anvil_handler w []) = Ok (status, quick) ->
  snd (fleet_handler w []) = Ok (mkFleetResponse 200 body) ->
  status = 200%Z
  /\ match quick with
     | Unreachable latency =>
         anvil_lan body = mkLink false latency
         /\ anvil_ollama_status body = "down"
     | Online latency models totalModels _ =>
         anvil_lan body = mkLink true latency
         /\ anvil_ollama_status body = "up"
         /\ map qm_name models = map am_name (anvil_ollama_models body)
         /\ map qm_size models = map am_size (anvil_ollama_models body)
         /\ totalModels = length (anvil_ollama_models body)
     end.
Proof.
  intros Hquick Hfleet.
  destruct (fleet_handler_built w Hfleet) as [am [lm [Ham Hlm]]].
  destruct (fleet_handler_returns w Ham Hlm)
    as [body' [Hr [H1 [H2 [H3 _]]]]].
  rewrite Hfleet in Hr. injection Hr as <-.
  revert Hquick. unfold anvil_handler, await_probe, bind, emit, ret, lift.
  cbn [app fst snd]. fold (anvilOllama w).
  destruct (ok (anvilOllama w)) eqn:Hok; cbn [negb fst snd].
  - destruct (quick_models (anvilOllama w)) as [qs|e] eqn:Hq; cbn [snd];
      [|discriminate].
    intros E. injection E as <- <-. split; [reflexivity|].
    destruct (quick_models_agree (anvilOllama w) Hok Hq Ham) as [Hn Hs].
    rewrite H1, H2, H3. repeat split; try assumption.
    apply (f_equal (@length _)) in Hn. now rewrite !length_map in Hn.
  - intros E. injection E as <- <-. split; [reflexivity|].
    rewrite H1, H2. now split.
Qed.

Lemma quick_check_example :
  snd (anvil_handler world_anvil_up [])
  = Ok (200%Z, Online 7 [] 0 "2026-01-01T00:00:00.000Z")
  /\ exists body,
       snd (fleet_handler world_anvil_up []) = Ok (mkFleetResponse 200 body)
       /\ anvil_lan body = mkLink true 7.
Proof.
  split; [reflexivity|].
  eexists. split; [reflexivity|].
  refine (proj1 (proj2 (@quick_check_agrees_with_snapshot Example.platform
                          world_anvil_up 200
                          (Online 7 [] 0 "2026-01-01T00:00:00.000Z") _
                          eq_refl _))).
  reflexivity.
Defined.

End FleetExtra.

(* ===================================================================== *)
(** * The vault routes and the request listener of server.js *)
(* ===================================================================== *)

Module VaultMore.
Import Router.

(** What [fs.readdirSync(dir, { withFileTypes: true })] lists, with the
    content of each directory: [Dir] is an entry whose [isDirectory()]
    holds, [File] any other entry. *)
#[warnings="-register-all"]
Inductive Entry : Type :=
| File (name : string)
| Dir (name : string) (entries : list Entry).

Definition entry_name (e : Entry) : string :=
  match e with
  | File n => n
  | Dir n _ => n
  end.

(** [entry.name.startsWith('.')] *)
Definition hidden (n : string) : bool := JsString.startsWith "." n.

(** What the loop body of [walk] adds to [count] for one entry. *)
Fixpoint counted (e : Entry) : nat :=
  match e with
  | File n =>
      if hidden n then 0 else if Vault.endsWith_md n then 1 else 0
  | Dir n entries =>
      if hidden n then 0
      else (fix walk (es : list Entry) : nat :=
              match es with
              | [] => 0
              | e' :: es' => counted e' + walk es'
              end) entries
  end.

(** [walk(dir)] on the entries of [dir]: the increase of [count]. *)
Definition walk (entries : list Entry) : nat :=
  fold_right (fun e n => counted e + n) 0 entries.

Inductive Body : Type :=
| Plain (b : Vault.Body)
| Stats (totalNotes : nat) (vaultPath : string)
| Structure (structure : list (string * string)).

Definition Handler : Type := Request -> jsobj -> result (Z * Body).

Section WithVault.
Context {P : Platform} {F : FileSystem}.
Variable VAULT_PATH : string.
(** The entries of the vault directory; [Throw] when it cannot be read. *)
Variable root : result (list Entry).

(** [vaultStats()] *)
Definition vaultStats : result (nat * string) :=
  rbind root (fun entries => Ok (walk entries, VAULT_PATH)).

Definition lift_plain (r : result Vault.Response) : result (Z * Body) :=
  rbind r (fun resp => Ok (Vault.status resp, Plain (Vault.body resp))).

Definition stats_handler : Handler := fun _ _ =>
  rbind vaultStats (fun s => Ok (200%Z, Stats (fst s) (snd s))).

Definition notes_handler : Handler := fun req _ =>
  lift_plain (Vault.notes_handler VAULT_PATH req).

Definition note_handler : Handler := fun req _ =>
  lift_plain (Vault.note_handler VAULT_PATH req).

Definition structure_handler : Handler := fun _ _ =>
  rbind root (fun entries =>
  Ok (200%Z,
      Structure
        (map (fun e => (entry_name e,
                        match e with Dir _ _ => "directory" | File _ => "file" end))
             (filter (fun e => negb (hidden (entry_name e))) entries)))).

(** [register(router)] of the vault routes. *)
Definition register (routes : list (Route Handler)) : list (Route Handler) :=
  get (get (get (get routes
    "/api/vault/stats" stats_handler)
    "/api/vault/notes" notes_handler)
    "/api/vault/note" note_handler)
    "/api/vault/structure" structure_handler.

End WithVault.

End VaultMore.

Module Server.
Import Router.

(** What the listener writes: [res.writeHead(code)] and the body handed to
    [res.end]. *)
Inductive Payload (B : Type) : Type :=
| NoBody
| NotFound (path : string)
| InternalError
| Json (body : B).

Arguments NoBody {B}.
Arguments NotFound {B} path.
Arguments InternalError {B}.
Arguments Json {B} body.

Record Written (B : Type) : Type := mkWritten {
  code : Z;
  payload : Payload B
}.

(** [res.writeHead] raises on a status code outside 100..999. *)
Definition valid_status (s : Z) : bool := ((100 <=? s) && (s <=? 999))%Z.

(** The request listener of [http.createServer], for handlers that return
    at once; the CORS headers it sets first are left out. *)
Definition listener {P : Platform} {B : Type}
  (routes : list (Route (Request -> jsobj -> result (Z * B))))
  (req : Request) : result (Written B) :=
  if String.eqb (req_method req) "OPTIONS" then Ok (mkWritten 204 NoBody)
  else
    match match_ routes (req_method req) (url req) with
    | Throw e => Throw e
    | Ok None => Ok (mkWritten 404 (NotFound (url req)))
    | Ok (Some (h, params)) =>
        match h req params with
        | Ok (status, body) =>
            if valid_status status then Ok (mkWritten status (Json body))
            else Ok (mkWritten 500 InternalError)
        | Throw _ => Ok (mkWritten 500 InternalError)
        end
    end.

End Server.

Module VaultExtra.
Import Router RouterSpec RouterMore.

Lemma substring_split (k : nat) (s : string) :
  (k <= String.length s)%nat ->
  (substring 0 k s ++ substring k (String.length s - k) s)%string = s.
Proof.
  revert s. induction k as [|k IH]; intros s Hk.
  - rewrite Nat.sub_0_r. destruct s as [|c s]; simpl; [reflexivity|].
    f_equal. clear. induction s as [|d s IH]; simpl; [reflexivity|].
    now rewrite IH.
  - destruct s as [|c s]; simpl in *; [lia|].
    f_equal. apply IH. lia.
Qed.

Lemma strip_md_round_trip (f : string) :
  Vault.endsWith_md f = true -> (Vault.strip_md f ++ ".md")%string = f.
Proof.
  intros H. unfold Vault.strip_md. rewrite H. unfold Vault.endsWith_md in H.
  apply andb_true_iff in H as [Hlen Hsuf].
  apply Nat.leb_le in Hlen. apply String.eqb_eq in Hsuf.
  pose proof (@substring_split (String.length f - 3) f) as Hsp.
  replace (String.length f - (String.length f - 3))%nat with 3%nat in Hsp by lia.
  rewrite Hsuf in Hsp. apply Hsp. lia.
Qed.

Section WithVault.
Context {P : Platform} {F : FileSystem}.
Variable VAULT_PATH : string.

Lemma note_entries_spec (dir subdir : string) (files : list string)
  (notes : list Vault.Note) :
  Vault.note_entries dir subdir files = Ok notes ->
  map (fun n => (Vault.note_name n ++ ".md")%string) notes
  = map (fun f => (Vault.strip_md f ++ ".md")%string) files
  /\ map Vault.note_path notes = map (path_join subdir) files
  /\ map (fun n => Ok (Vault.modified n)) notes
     = map (fun f => mtime_iso (path_join dir f)) files.
Proof.
  revert notes. induction files as [|f files IH]; intros notes; simpl.
  - intros H; injection H as <-. repeat split.
  - destruct (mtime_iso (path_join dir f)) as [m|e] eqn:Em; simpl; [|discriminate].
    destruct (Vault.note_entries dir subdir files) as [rest|e]; simpl;
      [|discriminate].
    intros H; injection H as <-. destruct (IH rest eq_refl) as [H1 [H2 H3]].
    simpl. now rewrite H1, H2, H3.
Qed.

End WithVault.

(** A file system with one directory, for the examples. *)
Definition one_dir_fs : FileSystem :=
  {| path_join := fun a b =>
       if String.eqb b "" then a else (a ++ "/" ++ b)%string;
     existsSync := fun p => String.eqb p "/vault";
     readFileSync := fun _ => Throw ExecError;
     readdirSync := fun _ => Ok ["Home.md"; "todo.txt"; ".md"];
     mtime_iso := fun _ => Ok "2026-01-01T00:00:00.000Z" |}.

(** X16.  When [listNotes] returns, its notes are the files of the
    directory whose name ends in [.md], in listing order and one note per
    file: the note's [name] followed by [.md] is the file name, its [path]
    is the file name joined to the directory asked for, and its [modified]
    is the file's time.  No other file is listed, and a directory that
    does not exist gives the empty list without being read. *)
Theorem listed_notes_are_the_md_files {F : FileSystem}
  (VAULT_PATH subdir : string) (notes : list Vault.Note) :
  Vault.listNotes VAULT_PATH subdir = Ok notes ->
  let dir := path_join VAULT_PATH subdir in
  (existsSync dir = false /\ notes = [])
  \/ (existsSync dir = true
      /\ exists files,
           readdirSync dir = Ok files
           /\ map (fun n => (Vault.note_name n ++ ".md")%string) notes
              = filter Vault.endsWith_md files
           /\ map Vault.note_path notes
              = map (path_join subdir) (filter Vault.endsWith_md files)
           /\ map (fun n => Ok (Vault.modified n)) notes
              = map (fun f => mtime_iso (path_join dir f))
                    (filter Vault.endsWith_md files)).
Proof.
  intros H dir. unfold Vault.listNotes in H. fold dir in H.
  destruct (existsSync dir) eqn:Ex; simpl in H.
  - right. split; [reflexivity|].
    destruct (readdirSync dir) as [files|e]; simpl in H; [|discriminate].
    exists files. split; [reflexivity|].
    destruct (note_entries_spec _ _ _ H) as [H1 [H2 H3]].
    split; [|split; assumption].
    rewrite H1. clear. induction files as [|f files IH]; simpl; [reflexivity|].
    destruct (Vault.endsWith_md f) eqn:E; simpl; [|exact IH].
    now rewrite IH, (strip_md_round_trip f E).
  - left. split; [reflexivity|]. now injection H as <-.
Qed.

Lemma listed_notes_example :
  exists notes,
    Vault.listNotes (F := one_dir_fs) "/vault" "" = Ok notes
    /\ map Vault.note_name notes = ["Home"; ""]
    /\ map (fun n => (Vault.note_name n ++ ".md")%string) notes = ["Home.md"; ".md"].
Proof.
  eexists. split; [vm_compute; reflexivity|]. split; [reflexivity|].
  destruct (@listed_notes_are_the_md_files one_dir_fs
              "/vault" "" _ eq_refl) as [[Hno _] | [_ [files [Hread [Hnames _]]]]].
  - discriminate.
  - injection Hread as <-. exact Hnames.
Defined.

(** X17.  [GET /api/vault/note] answers 200 only with what [readFileSync]
    returned for the requested path joined to the vault path, and only
    when that path holds no [..], the joined path starts with the vault
    path and exists; it answers 404 exactly when the path holds no [..]
    and the joined path does not start with the vault path or does not
    exist; and the only exception it lets through, once the URL is parsed,
    is one of [readFileSync]. *)
Theorem note_is_read_only_inside_vault {P : Platform} {F : FileSystem}
  (VAULT_PATH : string) (req : Request) (u : URL) :
  URL_parse (url req) = Some u ->
  let notePath := or_default (searchParams_get "path" (searchParams u)) "" in
  let fullPath := path_join VAULT_PATH notePath in
  let inside := JsString.startsWith VAULT_PATH fullPath && existsSync fullPath in
  (forall content,
     Vault.note_handler VAULT_PATH req
     = Ok (Vault.mkResponse 200 (Vault.BNote notePath content))
     <-> JsString.includes notePath ".." = false /\ inside = true
         /\ readFileSync fullPath = Ok content)
  /\ (Vault.note_handler VAULT_PATH req
      = Ok (Vault.mkResponse 404 (Vault.BError "Note not found"))
      <-> JsString.includes notePath ".." = false /\ inside = false)
  /\ (forall e,
        Vault.note_handler VAULT_PATH req = Throw e
        <-> JsString.includes notePath ".." = false /\ inside = true
            /\ readFileSync fullPath = Throw e).
Proof.
  intros Hu notePath fullPath inside.
  unfold Vault.note_handler, Vault.readNote. rewrite Hu.
  fold notePath. fold fullPath. subst inside.
  destruct (JsString.includes notePath "..");
    [|destruct (JsString.startsWith VAULT_PATH fullPath); simpl;
      [destruct (existsSync fullPath); simpl;
       [destruct (readFileSync fullPath) as [c|e0]; simpl|]|]];
    repeat split; intros;
    repeat match goal with
           | H : _ /\ _ |- _ => destruct H
           end;
    try discriminate; try congruence.
Qed.

Lemma note_is_read_example :
  Vault.note_handler (P := Example.platform) (F := one_dir_fs) "/vault"
                     (mkRequest "GET" "/api/vault/note?path=Missing.md")
  = Ok (Vault.mkResponse 404 (Vault.BError "Note not found")).
Proof.
  apply (proj1 (proj2 (@note_is_read_only_inside_vault Example.platform one_dir_fs
                         "/vault" (mkRequest "GET" "/api/vault/note?path=Missing.md")
                         (mkURL "/api/vault/note" [("path", "Missing.md")])
                         eq_refl))).
  split; reflexivity.
Defined.

End VaultExtra.

Module ServerExtra.
Import Router RouterSpec RouterMore Server.

(** X18.  The request listener answers [OPTIONS] with 204 before the
    router sees the request.  For any other method, on a URL whose path
    parts all decode, it always writes a response and never raises: 404
    with the request URL when no route fits; otherwise what the handler of
    the first fitting route returns, or 500 with a fixed body when that
    handler raises or returns a status outside 100..999, whatever was
    raised. *)
Theorem listener_always_answers {P : Platform} {B : Type}
  (routes : list (Route (Request -> jsobj -> result (Z * B))))
  (req : Request) :
  (req_method req = "OPTIONS" -> listener routes req = Ok (mkWritten 204 NoBody))
  /\ (forall u,
      req_method req <> "OPTIONS" ->
      URL_parse (url req) = Some u ->
      decodable (pathname u) ->
      match find (fits (req_method req) (pathname u)) routes with
      | None => listener routes req = Ok (mkWritten 404 (NotFound (url req)))
      | Some r =>
          exists params,
            matchPattern (pattern r) (pathname u) = Ok (Some params)
            /\ listener routes req
               = match handler r req params with
                 | Ok (status, body) =>
                     if valid_status status
                     then Ok (mkWritten status (Json body))
                     else Ok (mkWritten 500 InternalError)
                 | Throw _ => Ok (mkWritten 500 InternalError)
                 end
      end).
Proof.
  unfold listener. split.
  - intros ->. reflexivity.
  - intros u Hm Hu Hd.
    destruct (String.eqb_spec (req_method req) "OPTIONS");
      [contradiction|].
    unfold match_. rewrite Hu.
    pose proof (match_routes_decodable routes (req_method req) Hd) as Hr.
    destruct (find (fits (req_method req) (pathname u)) routes) as [r|].
    + destruct Hr as [params [Hr Hp]]. exists params. split; [exact Hp|].
      rewrite Hr. reflexivity.
    + now rewrite Hr.
Qed.

Section WithVault.
Context {P : Platform} {F : FileSystem}.
Variable VAULT_PATH : string.
Variable root : result (list VaultMore.Entry).

Lemma skip_unfit (routes0 rest : list (Route VaultMore.Handler)) (path : string) :
  decodable path ->
  Forall (fun r => fits "GET" path r = false) routes0 ->
  match_routes (routes0 ++ rest) "GET" path = match_routes rest "GET" path.
Proof.
  intros Hd Hno. rewrite match_routes_app.
  pose proof (match_routes_decodable routes0 "GET" Hd) as Hr.
  assert (Hf : find (fits "GET" path) routes0 = None).
  { clear Hr. induction Hno as [|r routes0 Hr _ IH]; simpl; [reflexivity|].
    now rewrite Hr. }
  rewrite Hf in Hr. now rewrite Hr.
Qed.

End WithVault.

(** The routes of the atlas module, with handlers that answer 200. *)
Definition atlas_patterns : list (Route VaultMore.Handler) :=
  let h : VaultMore.Handler := fun _ _ => Ok (200%Z, VaultMore.Structure []) in
  get (get (get (get [] "/api/atlas/assets" h) "/api/atlas/assets/:id" h)
           "/api/atlas/stats" h) "/api/atlas/search/:query" h.

(** X19.  With the vault routes registered after any routes that do not
    fit the request, a [GET] of [/api/vault/notes] whose decoded [dir]
    holds [..], or of [/api/vault/note] whose decoded [path] holds [..],
    is answered by the listener with 400 and the handler's error body:
    the request is routed to the vault handler and stopped there. *)
Theorem traversal_request_is_answered_400 {P : Platform} {F : FileSystem}
  (VAULT_PATH : string) (root : result (list VaultMore.Entry))
  (routes0 : list (Route VaultMore.Handler)) (req : Request) (u : URL)
  (v : string) :
  req_method req = "GET" ->
  URL_parse (url req) = Some u ->
  JsString.includes v ".." = true ->
  Forall (fun r => fits "GET" (pathname u) r = false) routes0 ->
  (pathname u = "/api/vault/notes" ->
   searchParams_get "dir" (searchParams u) = Some v ->
   listener (VaultMore.register VAULT_PATH root routes0) req
   = Ok (mkWritten 400 (Json (VaultMore.Plain (Vault.BError "Invalid directory")))))
  /\ (pathname u = "/api/vault/note" ->
      searchParams_get "path" (searchParams u) = Some v ->
      listener (VaultMore.register VAULT_PATH root routes0) req
      = Ok (mkWritten 400 (Json (VaultMore.Plain (Vault.BError "Invalid path"))))).
Proof.
  intros Hget Hu Hv Hno.
  assert (Hne : v <> EmptyString).
  { apply (includes_nonempty (sub := "..")); [discriminate | exact Hv]. }
  unfold listener, match_, VaultMore.register, get. rewrite Hget, Hu.
  cbn [String.eqb Ascii.eqb Bool.eqb].
  rewrite <- !app_assoc. cbn [app].
  split; intros Hpath Hparam; rewrite Hpath in *.
  - rewrite skip_unfit;
      [|apply percent_free_decodable; reflexivity | exact Hno].
    cbn [match_routes method pattern handler String.eqb Ascii.eqb Bool.eqb negb].
    change (matchPattern "/api/vault/stats" "/api/vault/notes") with
      (@Ok (option jsobj) None).
    change (matchPattern "/api/vault/notes" "/api/vault/notes") with
      (Ok (Some (@nil (string * string)))).
    cbv iota beta.
    unfold VaultMore.notes_handler, VaultMore.lift_plain, Vault.notes_handler.
    rewrite Hu, Hparam, (or_default_nonempty _ Hne), Hv. reflexivity.
  - rewrite skip_unfit;
      [|apply percent_free_decodable; reflexivity | exact Hno].
    cbn [match_routes method pattern handler String.eqb Ascii.eqb Bool.eqb negb].
    change (matchPattern "/api/vault/stats" "/api/vault/note") with
      (@Ok (option jsobj) None).
    change (matchPattern "/api/vault/notes" "/api/vault/note") with
      (@Ok (option jsobj) None).
    change (matchPattern "/api/vault/note" "/api/vault/note") with
      (Ok (Some (@nil (string * string)))).
    cbv iota beta.
    unfold VaultMore.note_handler, VaultMore.lift_plain, Vault.note_handler.
    rewrite Hu, Hparam, (or_default_nonempty _ Hne), Hv. reflexivity.
Qed.

Lemma traversal_request_example :
  listener (P := Example.platform)
           (VaultMore.register (P := Example.platform)
                               (F := VaultExtra.one_dir_fs) "/vault"
                               (Throw ExecError) atlas_patterns)
           (mkRequest "GET" "/api/vault/note?path=../secrets.md")
  = Ok (mkWritten 400 (Json (VaultMore.Plain (Vault.BError "Invalid path")))).
Proof.
  refine (proj2 (@traversal_request_is_answered_400 Example.platform
                   VaultExtra.one_dir_fs "/vault" (Throw ExecError) atlas_patterns
                   (mkRequest "GET" "/api/vault/note?path=../secrets.md")
                   (mkURL "/api/vault/note" [("path", "../secrets.md")])
                   "../secrets.md" eq_refl eq_refl eq_refl _) eq_refl eq_refl).
  repeat constructor.
Defined.

Lemma listener_example :
  listener (P := Example.platform)
           (VaultMore.register (P := Example.platform)
                               (F := VaultExtra.one_dir_fs) "/vault"
                               (Throw ExecError) atlas_patterns)
           (mkRequest "GET" "/api/vault/stats")
  = Ok (mkWritten 500 InternalError).
Proof.
  assert (Hd : decodable "/api/vault/stats").
  { apply percent_free_decodable. reflexivity. }
  assert (Hm : req_method (mkRequest "GET" "/api/vault/stats") <> "OPTIONS")
    by discriminate.
  pose proof (proj2 (@listener_always_answers Example.platform VaultMore.Body
              (VaultMore.register (P := Example.platform)
                                  (F := VaultExtra.one_dir_fs) "/vault"
                                  (Throw ExecError) atlas_patterns)
              (mkRequest "GET" "/api/vault/stats"))
              (mkURL "/api/vault/stats" []) Hm eq_refl Hd) as Hr.
  cbv beta in Hr. destruct Hr as [params [Hp Hl]]. exact Hl.
Defined.

End ServerExtra.

(* ===================================================================== *)
(** * The asset list: the page is a window of the sorted matching rows *)
(* ===================================================================== *)

Module AtlasMore.
Import Atlas.

















End AtlasMore.

Module AtlasExtra.
Import Atlas AtlasMore.



End AtlasExtra.
